(** * An in-memory file system: path resolution, navigation and removal

    Shallow embedding of the two [FileSystem] classes of the repository:

    - [Full]: the complete class (resolvePath, mkdirp, mkdir, cd, ls, pwd,
      touch, rm, rmdir), with parent back-references;
    - [Lib]: the reduced class of [src/lib/fileSystem.js] (cd, ls,
      resolvePath, initializeDefaultStructure, pwd), without them.

    JavaScript objects are mutable and compared by reference.  A node is
    therefore a cell of a heap (a list of node records) and a reference is
    an index into it; [new FileSystemNode(..)] appends a cell, a change to
    [children] rewrites the cell in place.  A JS [Map] is insertion
    ordered and is kept as an association list.  Strings are [string];
    the only character the code inspects is the ASCII slash, so the byte
    view and the UTF-16 view split at the same places.

    The recursions that need not end on an arbitrary heap ([pwd],
    [tree]) take fuel, and are shown to answer on every state of the
    class. *)

From stdpp Require Import base list strings.
From Stdlib Require Import Ascii Lia.

Open Scope string_scope.
Open Scope list_scope.

(** ** JavaScript strings and arrays of strings *)

(** [s.split('/')], never empty: [split "" = [""]]. *)
Fixpoint split (s : string) : list string :=
  match s with
  | EmptyString => [""]
  | String c s' =>
      if Ascii.eqb c "/" then "" :: split s'
      else match split s' with
           | [] => [String c ""]
           | w :: ws => String c w :: ws
           end
  end.

(** [Boolean(s)] on a string: the empty string is the only falsy one. *)
Definition Boolean (s : string) : bool :=
  match s with EmptyString => false | String _ _ => true end.

(** [arr.filter(Boolean)]. *)
Fixpoint filter_Boolean (l : list string) : list string :=
  match l with
  | [] => []
  | s :: l' => if Boolean s then s :: filter_Boolean l' else filter_Boolean l'
  end.

(** [s.startsWith('/')]. *)
Definition startsWith_slash (s : string) : bool :=
  match s with String c _ => Ascii.eqb c "/" | EmptyString => false end.

(** [arr.join(sep)]. *)
Fixpoint join (sep : string) (l : list string) : string :=
  match l with
  | [] => ""
  | [s] => s
  | s :: l' => s +:+ sep +:+ join sep l'
  end.

(** [arr.pop()] splits an array into its last element and the rest; on
    the empty array the element is [undefined]. *)
Fixpoint pop (l : list string) : list string * option string :=
  match l with
  | [] => ([], None)
  | [s] => ([], Some s)
  | s :: l' => let '(init, x) := pop l' in (s :: init, x)
  end.

(** No slash inside a path segment. *)
Fixpoint no_slash (s : string) : bool :=
  match s with
  | EmptyString => true
  | String c s' => negb (Ascii.eqb c "/") && no_slash s'
  end.

(** A segment of a normalised path: not empty, no slash, neither [.] nor
    [..]. *)
Definition plain_segment (s : string) : bool :=
  Boolean s && no_slash s && negb (String.eqb s ".") && negb (String.eqb s "..").

(** The absolute path spelled by a list of segments. *)
Definition abs_path (segs : list string) : string := "/" +:+ join "/" segs.

(** [n] is what follows the last slash of [path] and [prefix] what
    precedes it; a path without a slash is all name. *)
Definition last_segment (path prefix n : string) : Prop :=
  no_slash n = true /\
  ((no_slash path = true /\ prefix = "" /\ n = path) \/
   path = prefix +:+ "/" +:+ n).

(** A method argument: [None] is [undefined] (argument not given). *)
Definition arg := option string.

(** [!path]. *)
Definition falsy (path : arg) : bool :=
  match path with None => true | Some s => negb (Boolean s) end.

(** [path === s] for a string literal [s]. *)
Definition strict_eq (path : arg) (s : string) : bool :=
  match path with None => false | Some p => String.eqb p s end.

(** A template literal prints [undefined] for an absent value. *)
Definition show (path : arg) : string :=
  match path with None => "undefined" | Some s => s end.

(** ** JavaScript [Map] from names to node references *)

Abbreviation ref := nat (only parsing).
Abbreviation Map := (list (string * nat)) (only parsing).

Fixpoint Map_get (m : Map) (k : string) : option ref :=
  match m with
  | [] => None
  | (k', v) :: m' => if String.eqb k' k then Some v else Map_get m' k
  end.

Definition Map_has (m : Map) (k : string) : bool :=
  match Map_get m k with Some _ => true | None => false end.

(** [m.set(k, v)]: an existing key keeps its place, a new one goes last. *)
Fixpoint Map_set (m : Map) (k : string) (v : ref) : Map :=
  match m with
  | [] => [(k, v)]
  | (k', v') :: m' =>
      if String.eqb k' k then (k', v) :: m' else (k', v') :: Map_set m' k v
  end.

Fixpoint Map_delete (m : Map) (k : string) : Map :=
  match m with
  | [] => []
  | (k', v') :: m' =>
      if String.eqb k' k then Map_delete m' k else (k', v') :: Map_delete m' k
  end.

Definition Map_keys (m : Map) : list string := map fst m.

Definition Map_values (m : Map) : list ref := map snd m.

(** A seed object, given by what [Object.entries] returns for it: the
    pairs of key and value in the order of enumeration, which is the
    integer-like keys first, in ascending numeric order, and then the
    other keys in the order in which they were inserted.  A string value
    is a file's content, an object value a directory.  The two seeds of
    the repository have no integer-like key, so their entries are in the
    order in which the literals are written. *)
#[local] Unset Elimination Schemes.
Inductive structure : Type :=
  | Str (value : string)
  | Obj (entries : list (string * structure)).
#[local] Set Elimination Schemes.

(** Induction on a seed, with the hypothesis for every value of an
    object. *)
Fixpoint structure_nested_ind (P : structure -> Prop)
    (HStr : forall s, P (Str s))
    (HObj : forall entries, Forall (fun e => P e.2) entries -> P (Obj entries))
    (v : structure) {struct v} : P v :=
  match v with
  | Str s => HStr s
  | Obj entries =>
      HObj entries
        ((fix go (es : list (string * structure))
            : Forall (fun e => P e.2) es :=
            match es with
            | [] => List.Forall_nil _
            | e :: es' =>
                @List.Forall_cons _ (fun e => P e.2) e es'
                  (structure_nested_ind P HStr HObj e.2) (go es')
            end) entries)
  end.

Inductive NodeType : Type := file | directory.

Definition NodeType_eqb (a b : NodeType) : bool :=
  match a, b with
  | file, file | directory, directory => true
  | _, _ => false
  end.

(** ** The complete class *)

Module Full.

Record FileSystemNode : Type := mkNode {
  name : string;
  type : NodeType;
  content : string;
  children : Map;
  parent : option ref
}.

(** [new FileSystemNode(name, type, content)]. *)
Definition new_FileSystemNode (n : string) (t : NodeType) (c : string)
  : FileSystemNode :=
  {| name := n; type := t; content := c; children := []; parent := None |}.

Abbreviation Heap := (list FileSystemNode) (only parsing).

#[global] Instance FileSystemNode_inhabited : Inhabited FileSystemNode :=
  populate (new_FileSystemNode "" file "").

(** The cell behind a reference.  Every reference the class ever holds is
    in range ([wf_heap], [wf] below), the default is never read. *)
Definition deref (h : Heap) (r : ref) : FileSystemNode := h !!! r.

Definition set_parent (n : FileSystemNode) (p : ref) : FileSystemNode :=
  {| name := name n; type := type n; content := content n;
     children := children n; parent := Some p |}.

Definition set_children (n : FileSystemNode) (m : Map) : FileSystemNode :=
  {| name := name n; type := type n; content := content n;
     children := m; parent := parent n |}.

(** The three statements shared by createStructure, mkdirp, mkdir and
    touch:
      [const node = new FileSystemNode(n, t, c);]
      [node.parent = p;]
      [p.children.set(n, node);]
    The new reference is [length h]. *)
Definition add_child (h : Heap) (p : ref) (n : string) (t : NodeType)
    (c : string) : Heap :=
  let node := length h in
  let h1 := h ++ [set_parent (new_FileSystemNode n t c) p] in
  <[p := set_children (deref h1 p) (Map_set (children (deref h1 p)) n node)]> h1.

(** [p.children.delete(n)]. *)
Definition delete_child (h : Heap) (p : ref) (n : string) : Heap :=
  <[p := set_children (deref h p) (Map_delete (children (deref h p)) n)]> h.

Record FileSystem : Type := mkFS {
  heap : Heap;
  root : ref;
  currentDir : ref
}.

Definition set_currentDir (fs : FileSystem) (r : ref) : FileSystem :=
  {| heap := heap fs; root := root fs; currentDir := r |}.

Definition set_heap (fs : FileSystem) (h : Heap) : FileSystem :=
  {| heap := h; root := root fs; currentDir := currentDir fs |}.

(** *** initializeDefaultStructure *)

Fixpoint createStructure (value : structure) (h : Heap) (parentNode : ref)
    {struct value} : Heap :=
  match value with
  | Str _ => h
  | Obj entries =>
      (fix loop (es : list (string * structure)) (h : Heap) : Heap :=
         match es with
         | [] => h
         | (n, v) :: es' =>
             let node := length h in
             let h1 :=
               match v with
               | Str s => add_child h parentNode n file s
               | Obj _ => add_child h parentNode n directory ""
               end in
             let h2 :=
               match v with
               | Str _ => h1
               | Obj _ => createStructure v h1 node
               end in
             loop es' h2
         end) entries h
  end.

Definition defaultStructure : structure :=
  Obj [("thecmdchallenge", Obj [
    ("the-ultimate-joke.txt", Str "");
    ("small-name", Obj [
      ("level1", Obj [("level2", Obj [("level3", Obj [("level4", Obj [
        ("level5", Obj [("level6", Obj [("trophy.txt", Str "")])])])])])])]);
    ("funcode", Obj [
      ("kids.jpg", Str "");
      ("the-most-funny", Obj []);
      ("images", Obj [("hello", Obj [])])]);
    ("boringfolder", Obj [
      ("child", Obj [("the-mostboring-text.txt", Str "")])]);
    ("kamehameha", Obj [("dragon-ball-jokes.md", Str "")])])].

(** [new FileSystem()]: the root cell, then the default structure. *)
Definition new_FileSystem : FileSystem :=
  let h := [new_FileSystemNode "/" directory ""] in
  {| heap := createStructure defaultStructure h 0; root := 0; currentDir := 0 |}.

(** *** resolvePath *)

(** One turn of the loop body; [None] is the early [return null]. *)
Definition step (h : Heap) (current : ref) (part : string) : option ref :=
  if String.eqb part ".." then
    Some (match parent (deref h current) with Some p => p | None => current end)
  else if negb (String.eqb part ".") then
    Map_get (children (deref h current)) part
  else Some current.

Fixpoint walk (h : Heap) (current : ref) (parts : list string) : option ref :=
  match parts with
  | [] => Some current
  | part :: rest =>
      match step h current part with
      | None => None
      | Some next => walk h next rest
      end
  end.

Definition resolvePath (fs : FileSystem) (path : arg) : option ref :=
  if falsy path then Some (currentDir fs)
  else
    let p := show path in
    let parts := filter_Boolean (split p) in
    let current := if startsWith_slash p then root fs else currentDir fs in
    walk (heap fs) current parts.

(** *** mkdirp, mkdir, touch *)

Fixpoint mkdirp_loop (h : Heap) (current : ref) (parts : list string) : Heap :=
  match parts with
  | [] => h
  | part :: rest =>
      let h1 :=
        if negb (Map_has (children (deref h current)) part)
        then add_child h current part directory ""
        else h in
      match Map_get (children (deref h1 current)) part with
      | Some next => mkdirp_loop h1 next rest
      | None => h1
      end
  end.

Definition mkdirp (fs : FileSystem) (path : string) : FileSystem * string :=
  let parts := filter_Boolean (split path) in
  (set_heap fs (mkdirp_loop (heap fs) (currentDir fs) parts), "").

Definition mkdir (fs : FileSystem) (n : string) : FileSystem * string :=
  if Map_has (children (deref (heap fs) (currentDir fs))) n then
    (fs, "mkdir: " +:+ n +:+ ": Directory already exists")
  else
    (set_heap fs (add_child (heap fs) (currentDir fs) n directory ""), "").

Definition touch (fs : FileSystem) (n : string) : FileSystem * string :=
  if Map_has (children (deref (heap fs) (currentDir fs))) n then
    (fs, "touch: " +:+ n +:+ ": File already exists")
  else
    (set_heap fs (add_child (heap fs) (currentDir fs) n file ""), "").

(** *** cd, ls, pwd *)

Definition cd (fs : FileSystem) (path : arg) : FileSystem * string :=
  if strict_eq path "/" then (set_currentDir fs (root fs), "")
  else
    match resolvePath fs path with
    | None => (fs, "cd: " +:+ show path +:+ ": No such directory")
    | Some target =>
        if negb (NodeType_eqb (type (deref (heap fs) target)) directory)
        then (fs, "cd: " +:+ show path +:+ ": Not a directory")
        else (set_currentDir fs target, "")
    end.

Definition newline : string := String (ascii_of_nat 10) "".

Definition ls (fs : FileSystem) (path : arg) : string :=
  match (if falsy path then Some (currentDir fs) else resolvePath fs path) with
  | None => "ls: " +:+ show path +:+ ": No such file or directory"
  | Some target =>
      let t := deref (heap fs) target in
      if NodeType_eqb (type t) file then name t
      else join newline (Map_keys (children t))
  end.

(** The [while (current)] loop of pwd.  [None] as the current reference
    is [null]; the loop need not end on a heap whose parent links form a
    cycle, hence the fuel, and [None] as a result is "fuel exhausted". *)
Fixpoint pwd_loop (fuel : nat) (h : Heap) (rt : ref) (current : option ref)
    (parts : list string) : option (list string) :=
  match current with
  | None => Some parts
  | Some c =>
      if Nat.eqb c rt then Some ("" :: parts)
      else
        match fuel with
        | 0 => None
        | S fuel' =>
            pwd_loop fuel' h rt (parent (deref h c)) (name (deref h c) :: parts)
        end
  end.

Definition pwd_fuel (fuel : nat) (fs : FileSystem) : option string :=
  match pwd_loop fuel (heap fs) (root fs) (Some (currentDir fs)) [] with
  | None => None
  | Some parts =>
      let s := join "/" parts in
      Some (if Boolean s then s else "/")
  end.

(** One more turn than there are cells: enough whenever the parent links
    are acyclic ([pwd_total]). *)
Definition pwd (fs : FileSystem) : option string :=
  pwd_fuel (length (heap fs)) fs.

(** *** rm, rmdir *)

(** [parts = path.split('/'); name = parts.pop(); parentPath = parts.join('/')].
    The split of a string is never empty, so [pop] always yields a name. *)
Definition split_last (path : string) : string * string :=
  let '(parts, n) := pop (split path) in
  (join "/" parts, default "" n).

(** In rm the test [!parent.children.has(name)] and the following
    [parent.children.get(name)] are one lookup: a map never holds
    [undefined]. *)
Definition rm (fs : FileSystem) (path : arg) : FileSystem * string :=
  if falsy path then (fs, "rm: missing operand")
  else
    let '(parentPath, n) := split_last (show path) in
    let parent :=
      if Boolean parentPath then resolvePath fs (Some parentPath)
      else Some (currentDir fs) in
    match parent with
    | None => (fs, "rm: " +:+ show path +:+ ": No such file or directory")
    | Some p =>
        match Map_get (children (deref (heap fs) p)) n with
        | None => (fs, "rm: " +:+ show path +:+ ": No such file or directory")
        | Some target =>
            if NodeType_eqb (type (deref (heap fs) target)) directory
            then (fs, "rm: " +:+ show path +:+ ": Is a directory")
            else (set_heap fs (delete_child (heap fs) p n), "")
        end
    end.

Definition rmdir (fs : FileSystem) (path : arg) : FileSystem * string :=
  if falsy path then (fs, "rm: missing operand")
  else
    let '(parentPath, n) := split_last (show path) in
    let parent :=
      if Boolean parentPath then resolvePath fs (Some parentPath)
      else Some (currentDir fs) in
    match parent with
    | None => (fs, "rm: " +:+ show path +:+ ": No such file or directory")
    | Some p =>
        if negb (Map_has (children (deref (heap fs) p)) n)
        then (fs, "rm: " +:+ show path +:+ ": No such file or directory")
        else (set_heap fs (delete_child (heap fs) p n), "")
    end.


(** *** tree *)

Definition folder_icon : string := "📁".
Definition page_icon : string := "📄".

(** [children.forEach((child, index) => { result += this.tree(..) })]:
    [total] is [children.length], [rec] the recursive call with the new
    prefix already supplied. *)
Fixpoint forEach_tree (rec : ref -> bool -> option string) (total : nat)
    (cs : list ref) (index : nat) (result : string) : option string :=
  match cs with
  | [] => Some result
  | child :: cs' =>
      let isLastChild := Nat.eqb index (total - 1) in
      match rec child isLastChild with
      | None => None
      | Some t => forEach_tree rec total cs' (S index) (result +:+ t)
      end
  end.

(** The recursion of tree follows the children maps and need not end on
    a heap in which they form a cycle, hence the fuel; [None] is "fuel
    exhausted". *)
Fixpoint tree_fuel (fuel : nat) (h : Heap) (rt : ref) (node : ref)
    (prefix : string) (isLast : bool) : option string :=
  match fuel with
  | 0 => None
  | S fuel' =>
      let n := deref h node in
      let nodeType :=
        if NodeType_eqb (type n) directory then folder_icon else page_icon in
      let connector := if isLast then "└── " else "├── " in
      let result :=
        prefix +:+ connector +:+ nodeType +:+ " " +:+
        (if Nat.eqb node rt then "/" else name n) +:+ newline in
      if NodeType_eqb (type n) directory then
        let cs := Map_values (children n) in
        let newPrefix := prefix +:+ (if isLast then "    " else "│   ") in
        forEach_tree (fun child isLastChild =>
                        tree_fuel fuel' h rt child newPrefix isLastChild)
                     (length cs) cs 0 result
      else Some result
  end.

(** [tree()] with its default arguments; as many levels as there are
    cells are enough on every state of the class ([tree_total]). *)
Definition tree (fs : FileSystem) : option string :=
  tree_fuel (length (heap fs)) (heap fs) (root fs) (currentDir fs) "" true.


(** *** The states of the class *)

(** The methods that change the object ([ls], [pwd], [resolvePath] and
    [tree] only read it). *)
Inductive command : Type :=
  | Mkdirp (path : string)
  | Mkdir (n : string)
  | Touch (n : string)
  | Cd (path : arg)
  | Rm (path : arg)
  | Rmdir (path : arg).

Definition run (fs : FileSystem) (c : command) : FileSystem * string :=
  match c with
  | Mkdirp path => mkdirp fs path
  | Mkdir n => mkdir fs n
  | Touch n => touch fs n
  | Cd path => cd fs path
  | Rm path => rm fs path
  | Rmdir path => rmdir fs path
  end.

(** The states an instance can be in: the freshly constructed one and
    whatever a sequence of method calls makes of it. *)
Inductive reachable : FileSystem -> Prop :=
  | reachable_new : reachable new_FileSystem
  | reachable_run fs c : reachable fs -> reachable (run fs c).1.

(** [h'] keeps every cell of [h], up to its children map. *)
Definition extends (h h' : Heap) : Prop :=
  length h <= length h' /\
  forall i, i < length h ->
    name (deref h' i) = name (deref h i) /\
    type (deref h' i) = type (deref h i) /\
    parent (deref h' i) = parent (deref h i).

(** The shape every heap of the class has: the root is a directory
    without a parent, every
    other cell has one, allocated before it, and a cell entered in a
    children map carries the key as its name and the owner as its
    parent. *)
Record wf_heap (h : Heap) (rt : ref) : Prop := {
  wf_root : rt < length h;
  wf_root_parent : parent (deref h rt) = None;
  wf_root_dir : type (deref h rt) = directory;
  wf_parent_lt :
    forall i p, i < length h -> parent (deref h i) = Some p -> p < i;
  wf_parent_some :
    forall i, i < length h -> i <> rt -> parent (deref h i) <> None;
  wf_children :
    forall i k c, i < length h -> In (k, c) (children (deref h i)) ->
      c < length h /\ name (deref h c) = k /\ parent (deref h c) = Some i
}.

Record wf (fs : FileSystem) : Prop := {
  wf_h : wf_heap (heap fs) (root fs);
  wf_cwd : currentDir fs < length (heap fs);
  wf_cwd_dir : type (deref (heap fs) (currentDir fs)) = directory
}.

(** The same shape as a test that can be run on a given heap. *)
Definition option_ref_eqb (a b : option ref) : bool :=
  match a, b with
  | Some x, Some y => Nat.eqb x y
  | None, None => true
  | _, _ => false
  end.

Definition cell_ok (h : Heap) (rt : ref) (i : ref) : bool :=
  match parent (deref h i) with
  | Some p => Nat.ltb p i
  | None => Nat.eqb i rt
  end
  && forallb (fun kc : string * ref =>
                Nat.ltb kc.2 (length h)
                && String.eqb (name (deref h kc.2)) kc.1
                && option_ref_eqb (parent (deref h kc.2)) (Some i))
             (children (deref h i)).

Definition wf_heapb (h : Heap) (rt : ref) : bool :=
  Nat.ltb rt (length h)
  && option_ref_eqb (parent (deref h rt)) None
  && NodeType_eqb (type (deref h rt)) directory
  && forallb (cell_ok h rt) (seq 0 (length h)).

Definition files_emptyb (h : Heap) : bool :=
  forallb (fun i => match type (deref h i), children (deref h i) with
                    | file, _ :: _ => false
                    | _, _ => true
                    end) (seq 0 (length h)).


(** The cells from just below the root down to [c], as the parent links
    give them: empty for the root itself, otherwise the line of the
    parent followed by [c]. *)
Inductive lineage (h : Heap) (rt : ref) : ref -> list ref -> Prop :=
  | lineage_root : lineage h rt rt []
  | lineage_child c p cells :
      c <> rt -> parent (deref h c) = Some p -> lineage h rt p cells ->
      lineage h rt c (cells ++ [c]).

(** [d] can be reached from [r] by going down through children maps. *)
Inductive descends (h : Heap) (r : ref) : ref -> Prop :=
  | descends_refl : descends h r r
  | descends_child c k d :
      descends h r c -> Map_get (children (deref h c)) k = Some d ->
      descends h r d.


(** A file keeps an empty children map. *)
Definition files_empty (h : Heap) : Prop :=
  forall i, i < length h -> type (deref h i) = file -> children (deref h i) = [].


(** *** removeFile and removeDirectory, as the specification words them *)

(** The parent a removal addresses: the resolved prefix, the current
    directory when the prefix is empty. *)
Definition parent_of (fs : FileSystem) (prefix : string) : option ref :=
  if Boolean prefix then resolvePath fs (Some prefix) else Some (currentDir fs).

(** [h'] is [h] with the name [n] taken out of the children of [p], and
    nothing else changed. *)
Definition unlinked (h : Heap) (p : ref) (n : string) (h' : Heap) : Prop :=
  length h' = length h /\
  (forall i, i <> p -> deref h' i = deref h i) /\
  name (deref h' p) = name (deref h p) /\
  type (deref h' p) = type (deref h p) /\
  content (deref h' p) = content (deref h p) /\
  parent (deref h' p) = parent (deref h p) /\
  Map_get (children (deref h' p)) n = None /\
  (forall k, k <> n ->
     Map_get (children (deref h' p)) k = Map_get (children (deref h p)) k).

(** The child a removal finds under the name it addresses, if any. *)
Definition removal_target (fs : FileSystem) (path : arg) : option ref :=
  if falsy path then None
  else
    match parent_of fs (split_last (show path)).1 with
    | None => None
    | Some p => Map_get (children (deref (heap fs) p)) (split_last (show path)).2
    end.

Inductive removeFile_spec (fs : FileSystem) (path : arg)
  : FileSystem * string -> Prop :=
  | removeFile_missing_operand :
      falsy path = true ->
      removeFile_spec fs path (fs, "rm: missing operand")
  | removeFile_no_parent prefix n :
      falsy path = false -> last_segment (show path) prefix n ->
      parent_of fs prefix = None ->
      removeFile_spec fs path
        (fs, "rm: " +:+ show path +:+ ": No such file or directory")
  | removeFile_no_child prefix n p :
      falsy path = false -> last_segment (show path) prefix n ->
      parent_of fs prefix = Some p ->
      Map_get (children (deref (heap fs) p)) n = None ->
      removeFile_spec fs path
        (fs, "rm: " +:+ show path +:+ ": No such file or directory")
  | removeFile_is_a_directory prefix n p target :
      falsy path = false -> last_segment (show path) prefix n ->
      parent_of fs prefix = Some p ->
      Map_get (children (deref (heap fs) p)) n = Some target ->
      type (deref (heap fs) target) = directory ->
      removeFile_spec fs path
        (fs, "rm: " +:+ show path +:+ ": Is a directory")
  | removeFile_unlinks prefix n p target h' :
      falsy path = false -> last_segment (show path) prefix n ->
      parent_of fs prefix = Some p ->
      Map_get (children (deref (heap fs) p)) n = Some target ->
      type (deref (heap fs) target) = file ->
      unlinked (heap fs) p n h' ->
      removeFile_spec fs path (set_heap fs h', "").

End Full.

(** ** The reduced class of [src/lib/fileSystem.js] *)

Module Lib.

Record FileSystemNode : Type := mkNode {
  name : string;
  type : NodeType;
  children : Map;
  content : option string
}.

(** [new FileSystemNode(name, type)]; [content] starts as [null]. *)
Definition new_FileSystemNode (n : string) (t : NodeType) : FileSystemNode :=
  {| name := n; type := t; children := []; content := None |}.

Definition isDirectory (n : FileSystemNode) : bool := NodeType_eqb (type n) directory.
Definition isFile (n : FileSystemNode) : bool := NodeType_eqb (type n) file.

Abbreviation Heap := (list FileSystemNode) (only parsing).

#[global] Instance FileSystemNode_inhabited : Inhabited FileSystemNode :=
  populate (new_FileSystemNode "" file).

Definition deref (h : Heap) (r : ref) : FileSystemNode := h !!! r.

Definition set_children (n : FileSystemNode) (m : Map) : FileSystemNode :=
  {| name := name n; type := type n; children := m; content := content n |}.

Definition set_content (n : FileSystemNode) (c : string) : FileSystemNode :=
  {| name := name n; type := type n; children := children n; content := Some c |}.

Record FileSystem : Type := mkFS {
  heap : Heap;
  root : ref;
  currentDir : ref
}.

Definition set_currentDir (fs : FileSystem) (r : ref) : FileSystem :=
  {| heap := heap fs; root := root fs; currentDir := r |}.

(** [new FileSystem()]: only the root cell. *)
Definition new_FileSystem : FileSystem :=
  {| heap := [new_FileSystemNode "/" directory]; root := 0; currentDir := 0 |}.

(** A method either returns or throws; the only exception this class can
    raise is the [TypeError] of [undefined.split]. *)
Inductive completion (A : Type) : Type :=
  | Return (a : A)
  | TypeError.
Arguments Return {A} a.
Arguments TypeError {A}.

(** The loop of resolvePath: a segment is looked up only while the
    target is a directory, otherwise the turn does nothing. *)
Fixpoint walk (h : Heap) (target : ref) (parts : list string) : option ref :=
  match parts with
  | [] => Some target
  | part :: rest =>
      if isDirectory (deref h target) then
        match Map_get (children (deref h target)) part with
        | None => None
        | Some next => walk h next rest
        end
      else walk h target rest
  end.

Definition resolvePath (fs : FileSystem) (path : arg) : completion (option ref) :=
  match path with
  | None => TypeError
  | Some p => Return (walk (heap fs) (currentDir fs) (filter_Boolean (split p)))
  end.

Definition cd (fs : FileSystem) (path : arg) : completion (FileSystem * bool) :=
  match resolvePath fs path with
  | TypeError => TypeError
  | Return None => Return (fs, false)
  | Return (Some target) =>
      if isDirectory (deref (heap fs) target)
      then Return (set_currentDir fs target, true)
      else Return (fs, false)
  end.

Definition ls (fs : FileSystem) : list string :=
  Map_keys (children (deref (heap fs) (currentDir fs))).

Definition pwd (fs : FileSystem) : string :=
  name (deref (heap fs) (currentDir fs)).

(** [buildStructure]: the node is created, filled, and only then entered
    in its parent's map. *)
Fixpoint buildStructure (value : structure) (h : Heap) (parent : ref)
    {struct value} : Heap :=
  match value with
  | Str _ => h
  | Obj entries =>
      (fix loop (es : list (string * structure)) (h : Heap) : Heap :=
         match es with
         | [] => h
         | (n, v) :: es' =>
             let node := length h in
             let h1 :=
               match v with
               | Str s => h ++ [set_content (new_FileSystemNode n file) s]
               | Obj _ => buildStructure v (h ++ [new_FileSystemNode n directory]) node
               end in
             let h2 :=
               <[parent := set_children (deref h1 parent)
                             (Map_set (children (deref h1 parent)) n node)]> h1 in
             loop es' h2
         end) entries h
  end.

Definition initializeDefaultStructure (fs : FileSystem) (s : structure)
  : FileSystem :=
  {| heap := buildStructure s (heap fs) (root fs);
     root := root fs; currentDir := currentDir fs |}.

Definition initialStructure : structure :=
  Obj [("thecmdchallenge", Obj [("home", Obj [("user", Obj [
    ("documents", Obj [
      ("file1.txt", Str "contenido del archivo 1");
      ("file2.txt", Str "contenido del archivo 2")]);
    ("downloads", Obj [])])])])].

(** The instance the file builds and exercises:
    [const fs = new FileSystem(); fs.initializeDefaultStructure(initialStructure)]. *)
Definition fs : FileSystem :=
  initializeDefaultStructure new_FileSystem initialStructure.


(** *** The states of the reduced class *)

(** An instance is constructed, seeded with object literals and moved by
    cd; no other method changes it. *)
Inductive reachable : FileSystem -> Prop :=
  | reachable_new : reachable new_FileSystem
  | reachable_seed fs entries :
      reachable fs -> reachable (initializeDefaultStructure fs (Obj entries))
  | reachable_cd fs path fs' b :
      reachable fs -> cd fs path = Return (fs', b) -> reachable fs'.

(** The shape of its heaps: an entry of a children map points to a
    later cell of the heap that carries the key as its name. *)
Definition forward (h : Heap) : Prop :=
  forall i k c, In (k, c) (children (deref h i)) ->
    i < c /\ c < length h /\ name (deref h c) = k.

Record wf (fs : FileSystem) : Prop := {
  wf_forward : forward (heap fs);
  wf_root : root fs < length (heap fs);
  wf_cwd : currentDir fs < length (heap fs);
  wf_cwd_dir : isDirectory (deref (heap fs) (currentDir fs)) = true
}.


(** [h'] keeps the cells of [h]: their names and types, and the children
    of all but [p]. *)
Definition keeps (h h' : Heap) (p : ref) : Prop :=
  length h <= length h' /\
  (forall i, i < length h ->
     name (deref h' i) = name (deref h i) /\
     type (deref h' i) = type (deref h i)) /\
  (forall i, i < length h -> i <> p ->
     children (deref h' i) = children (deref h i)).


(** One turn of the loop of [buildStructure], for the entry [(n, v)]. *)
Definition build_entry (h : Heap) (parent : ref) (n : string) (v : structure)
  : Heap :=
  let node := length h in
  let h1 :=
    match v with
    | Str s => h ++ [set_content (new_FileSystemNode n file) s]
    | Obj _ => buildStructure v (h ++ [new_FileSystemNode n directory]) node
    end in
  <[parent := set_children (deref h1 parent)
                (Map_set (children (deref h1 parent)) n node)]> h1.

(** The names [ls] shows after the keys [ks] have been set one after the
    other: a key that is set again keeps its place. *)
Definition set_key (shown : list string) (k : string) : list string :=
  if existsb (String.eqb k) shown then shown else shown ++ [k].

End Lib.


(** * Properties *)

(** ** Strings: [split] and [join] *)


Lemma split_nonempty s : split s <> [].
Proof.
  destruct s as [|c s]; simpl; [discriminate|].
  destruct (Ascii.eqb c "/"); [discriminate|].
  destruct (split s); discriminate.
Qed.

Lemma split_no_slash s : no_slash s = true -> split s = [s].
Proof.
  induction s as [|c s IH]; simpl; [reflexivity|].
  intros H. apply andb_prop in H as [Hc Hs].
  apply negb_true_iff in Hc. rewrite Hc, (IH Hs). reflexivity.
Qed.

Lemma split_app_slash s t :
  no_slash s = true -> split (s +:+ "/" +:+ t) = s :: split t.
Proof.
  induction s as [|c s IH]; simpl; [reflexivity|].
  intros H. apply andb_prop in H as [Hc Hs].
  apply negb_true_iff in Hc. rewrite Hc, (IH Hs). reflexivity.
Qed.

Lemma split_join segs :
  segs <> [] -> Forall (fun s => no_slash s = true) segs ->
  split (join "/" segs) = segs.
Proof.
  induction segs as [|s segs IH]; [congruence|].
  intros _ H. inversion H as [|? ? Hs Hsegs]; subst.
  destruct segs as [|s' segs]; simpl.
  - apply split_no_slash, Hs.
  - change (split (s +:+ "/" +:+ join "/" (s' :: segs)) = s :: s' :: segs).
    rewrite (split_app_slash _ _ Hs), IH; [reflexivity|discriminate|assumption].
Qed.

Lemma filter_Boolean_id segs :
  Forall (fun s => Boolean s = true) segs -> filter_Boolean segs = segs.
Proof.
  induction 1 as [|s segs Hs _ IH]; simpl; [reflexivity|].
  rewrite Hs, IH. reflexivity.
Qed.

Lemma plain_segment_spec s :
  plain_segment s = true ->
  Boolean s = true /\ no_slash s = true /\ s <> "." /\ s <> "..".
Proof.
  unfold plain_segment. intros H.
  repeat (apply andb_prop in H as [H ?]).
  repeat split; try assumption.
  - intros ->. discriminate.
  - intros ->. discriminate.
Qed.


Lemma parts_abs_path segs :
  Forall (fun s => plain_segment s = true) segs ->
  filter_Boolean (split (abs_path segs)) = segs.
Proof.
  intros H. unfold abs_path.
  destruct segs as [|s segs]; [reflexivity|].
  change (filter_Boolean (split ("" +:+ "/" +:+ join "/" (s :: segs))) = s :: segs).
  rewrite split_app_slash by reflexivity.
  rewrite split_join; [|discriminate|].
  - change (filter_Boolean (s :: segs) = s :: segs). apply filter_Boolean_id.
    eapply Forall_impl; [exact H|]. intros x Hx.
    apply plain_segment_spec in Hx. tauto.
  - eapply Forall_impl; [exact H|]. intros x Hx.
    apply plain_segment_spec in Hx. tauto.
Qed.

Lemma split_Forall_no_slash s : Forall (fun w => no_slash w = true) (split s).
Proof.
  induction s as [|c s IH]; simpl; [repeat constructor|].
  destruct (Ascii.eqb c "/") eqn:E; [constructor; [reflexivity|assumption]|].
  destruct (split s) as [|w ws]; [repeat constructor; simpl; rewrite E; reflexivity|].
  inversion IH; subst. constructor; [simpl; rewrite E|]; assumption.
Qed.

Lemma join_split s : join "/" (split s) = s.
Proof.
  induction s as [|c s IH]; simpl; [reflexivity|].
  destruct (Ascii.eqb c "/") eqn:E.
  - apply Ascii.eqb_eq in E. subst c.
    pose proof (split_nonempty s) as Hne.
    destruct (split s) as [|w ws]; [congruence|].
    change (join "/" ("" :: w :: ws)) with ("/" +:+ join "/" (w :: ws)).
    rewrite IH. reflexivity.
  - pose proof (split_nonempty s) as Hne.
    destruct (split s) as [|w ws]; [congruence|].
    destruct ws as [|w' ws]; simpl in *; rewrite <- IH; reflexivity.
Qed.

Lemma split_snoc prefix n :
  no_slash n = true -> split (prefix +:+ "/" +:+ n) = split prefix ++ [n].
Proof.
  intros Hn. induction prefix as [|c prefix IH]; simpl.
  - change ("" :: split n = [""; n]). rewrite (split_no_slash n Hn). reflexivity.
  - destruct (Ascii.eqb c "/"); [rewrite IH; reflexivity|].
    rewrite IH. pose proof (split_nonempty prefix) as Hne.
    destruct (split prefix); [congruence|reflexivity].
Qed.

Lemma pop_snoc l x : pop (l ++ [x]) = (l, Some x).
Proof.
  induction l as [|y l IH]; simpl; [reflexivity|].
  rewrite IH. destruct (l ++ [x]) eqn:E; [|reflexivity].
  destruct l; discriminate.
Qed.

Lemma pop_inv l : l <> [] -> exists init x, l = init ++ [x] /\ pop l = (init, Some x).
Proof.
  intros Hne. destruct (@exists_last _ l Hne) as (init & x & ->).
  exists init, x. split; [reflexivity|apply pop_snoc].
Qed.

Lemma append_assoc (a b c : string) : (a +:+ b) +:+ c = a +:+ (b +:+ c).
Proof.
  induction a as [|x a IH]; [reflexivity|].
  change (String x ((a +:+ b) +:+ c) = String x (a +:+ (b +:+ c))).
  rewrite IH. reflexivity.
Qed.

Lemma join_snoc init x :
  init <> [] -> join "/" (init ++ [x]) = join "/" init +:+ "/" +:+ x.
Proof.
  induction init as [|y init IH]; [congruence|]. intros _.
  destruct init as [|z init]; [reflexivity|].
  change (join "/" ((y :: z :: init) ++ [x]))
    with (y +:+ "/" +:+ join "/" ((z :: init) ++ [x])).
  rewrite IH by discriminate.
  change (join "/" (y :: z :: init)) with (y +:+ "/" +:+ join "/" (z :: init)).
  rewrite !append_assoc. reflexivity.
Qed.

(** ** Maps *)

Lemma Map_get_In m k v : Map_get m k = Some v -> In (k, v) m.
Proof.
  induction m as [|[k' v'] m IH]; simpl; [discriminate|].
  destruct (String.eqb k' k) eqn:E.
  - apply String.eqb_eq in E. intros [= ->]. left. congruence.
  - intros H. right. auto.
Qed.

Lemma Map_In_set m k v k0 v0 :
  In (k0, v0) (Map_set m k v) -> In (k0, v0) m \/ (k0 = k /\ v0 = v).
Proof.
  induction m as [|[k' v'] m IH]; simpl.
  - intros [[= <- <-]|[]]. auto.
  - destruct (String.eqb k' k) eqn:E; simpl.
    + apply String.eqb_eq in E. intros [[= <- <-]|H]; auto.
    + intros [H|H]; auto. destruct (IH H); auto.
Qed.

Lemma Map_In_delete m k k0 v0 :
  In (k0, v0) (Map_delete m k) -> In (k0, v0) m /\ k0 <> k.
Proof.
  induction m as [|[k' v'] m IH]; simpl; [tauto|].
  destruct (String.eqb k' k) eqn:E; simpl.
  - intros H. destruct (IH H). auto.
  - apply String.eqb_neq in E. intros [[= <- <-]|H]; [auto|].
    destruct (IH H). auto.
Qed.

Lemma Map_get_set_eq m k v : Map_get (Map_set m k v) k = Some v.
Proof.
  induction m as [|[k' v'] m IH]; simpl.
  - rewrite String.eqb_refl. reflexivity.
  - destruct (String.eqb k' k) eqn:E; simpl; rewrite E; auto.
Qed.

Lemma Map_get_set_ne m k v k0 :
  k0 <> k -> Map_get (Map_set m k v) k0 = Map_get m k0.
Proof.
  intros Hne. induction m as [|[k' v'] m IH]; simpl.
  - apply String.eqb_neq in Hne. rewrite String.eqb_sym, Hne. reflexivity.
  - destruct (String.eqb k' k) eqn:E; simpl.
    + apply String.eqb_eq in E. subst k'.
      apply String.eqb_neq in Hne. rewrite String.eqb_sym, Hne. reflexivity.
    + rewrite IH. reflexivity.
Qed.

Lemma Map_get_delete_eq m k : Map_get (Map_delete m k) k = None.
Proof.
  induction m as [|[k' v'] m IH]; simpl; [reflexivity|].
  destruct (String.eqb k' k) eqn:E; simpl; [assumption|].
  rewrite E. assumption.
Qed.

Lemma Map_get_delete_ne m k k0 :
  k0 <> k -> Map_get (Map_delete m k) k0 = Map_get m k0.
Proof.
  intros Hne. induction m as [|[k' v'] m IH]; simpl; [reflexivity|].
  destruct (String.eqb k' k) eqn:E; simpl.
  - apply String.eqb_eq in E. subst k'.
    apply String.eqb_neq in Hne. rewrite String.eqb_sym, Hne. assumption.
  - rewrite IH. reflexivity.
Qed.

Lemma Map_has_get m k : Map_has m k = true <-> exists v, Map_get m k = Some v.
Proof.
  unfold Map_has. destruct (Map_get m k); split; eauto; try discriminate.
  intros [? [=]].
Qed.

Lemma Map_has_false m k : Map_has m k = false <-> Map_get m k = None.
Proof.
  unfold Map_has. destruct (Map_get m k); split; congruence.
Qed.

(** ** The complete class: heap shape *)

Section FullHeap.
Import Full.

Lemma length_add_child h p n t c : length (add_child h p n t c) = S (length h).
Proof.
  unfold add_child; cbv zeta. rewrite length_insert, length_app. simpl. lia.
Qed.

Lemma deref_add_child_new h p n t c :
  p < length h ->
  deref (add_child h p n t c) (length h) = set_parent (new_FileSystemNode n t c) p.
Proof.
  intros Hp. unfold add_child, deref; cbv zeta.
  rewrite list_lookup_total_insert_ne by lia.
  rewrite lookup_total_app_r by lia.
  replace (length h - length h) with 0 by lia. reflexivity.
Qed.

Lemma deref_add_child_parent h p n t c :
  p < length h ->
  deref (add_child h p n t c) p =
  set_children (deref h p) (Map_set (children (deref h p)) n (length h)).
Proof.
  intros Hp. unfold add_child, deref; cbv zeta.
  rewrite list_lookup_total_insert_eq by (rewrite length_app; simpl; lia).
  rewrite lookup_total_app_l by lia. reflexivity.
Qed.

Lemma deref_add_child_other h p n t c i :
  i < length h -> i <> p -> deref (add_child h p n t c) i = deref h i.
Proof.
  intros Hi Hne. unfold add_child, deref; cbv zeta.
  rewrite list_lookup_total_insert_ne by lia.
  rewrite lookup_total_app_l by lia. reflexivity.
Qed.

Lemma length_delete_child h p n : length (delete_child h p n) = length h.
Proof. unfold delete_child. apply length_insert. Qed.

Lemma deref_delete_child_parent h p n :
  p < length h ->
  deref (delete_child h p n) p =
  set_children (deref h p) (Map_delete (children (deref h p)) n).
Proof.
  intros Hp. unfold delete_child, deref.
  rewrite list_lookup_total_insert_eq by lia. reflexivity.
Qed.

Lemma deref_delete_child_other h p n i :
  i <> p -> deref (delete_child h p n) i = deref h i.
Proof.
  intros Hne. unfold delete_child, deref.
  rewrite list_lookup_total_insert_ne by lia. reflexivity.
Qed.


Lemma extends_refl h : extends h h.
Proof. split; [lia|auto]. Qed.

Lemma extends_trans h1 h2 h3 : extends h1 h2 -> extends h2 h3 -> extends h1 h3.
Proof.
  intros [L1 E1] [L2 E2]. split; [lia|].
  intros i Hi. destruct (E1 i Hi) as (?&?&?).
  destruct (E2 i ltac:(lia)) as (?&?&?). repeat split; congruence.
Qed.

Lemma extends_add_child h p n t c :
  p < length h -> extends h (add_child h p n t c).
Proof.
  intros Hp. split; [rewrite length_add_child; lia|].
  intros i Hi. destruct (Nat.eq_dec i p) as [->|Hne].
  - rewrite deref_add_child_parent by assumption. auto.
  - rewrite deref_add_child_other by assumption. auto.
Qed.

Lemma extends_delete_child h p n : extends h (delete_child h p n).
Proof.
  split; [rewrite length_delete_child; lia|].
  intros i Hi. destruct (Nat.eq_dec i p) as [->|Hne].
  - rewrite deref_delete_child_parent by assumption. auto.
  - rewrite deref_delete_child_other by assumption. auto.
Qed.


Lemma wf_heap_add_child h rt p n t c :
  wf_heap h rt -> p < length h -> wf_heap (add_child h p n t c) rt.
Proof.
  intros W Hp. pose proof (extends_add_child h p n t c Hp) as [_ E].
  destruct W as [Wr Wrp Wrd Wlt Wsome Wch].
  split.
  - rewrite length_add_child. lia.
  - destruct (E rt Wr) as (_&_&->). assumption.
  - destruct (E rt Wr) as (_&->&_). assumption.
  - intros i q Hi. rewrite length_add_child in Hi.
    destruct (Nat.eq_dec i (length h)) as [->|Hne].
    + rewrite deref_add_child_new by assumption. simpl. intros [= <-]. assumption.
    + destruct (E i ltac:(lia)) as (_&_&->). apply Wlt. lia.
  - intros i Hi Hrt. rewrite length_add_child in Hi.
    destruct (Nat.eq_dec i (length h)) as [->|Hne].
    + rewrite deref_add_child_new by assumption. discriminate.
    + destruct (E i ltac:(lia)) as (_&_&->). apply Wsome; [lia|assumption].
  - intros i k d Hi Hin. rewrite length_add_child in *.
    assert (Hold : forall k d, In (k, d) (children (deref h i)) -> i < length h ->
              d < S (length h) /\ name (deref (add_child h p n t c) d) = k /\
              parent (deref (add_child h p n t c) d) = Some i).
    { intros k0 d0 Hin0 Hi0. destruct (Wch i k0 d0 Hi0 Hin0) as (Hd&Hn&Hpar).
      destruct (E d0 Hd) as (->&_&->). auto. }
    destruct (Nat.eq_dec i (length h)) as [->|Hne].
    + rewrite deref_add_child_new in Hin by assumption. destruct Hin.
    + destruct (Nat.eq_dec i p) as [->|Hnp].
      * rewrite deref_add_child_parent in Hin by assumption. simpl in Hin.
        apply Map_In_set in Hin as [Hin|[-> ->]]; [apply Hold; [assumption|lia]|].
        rewrite deref_add_child_new by assumption. simpl. auto.
      * rewrite deref_add_child_other in Hin by lia. apply Hold; [assumption|lia].
Qed.

Lemma wf_heap_delete_child h rt p n :
  wf_heap h rt -> wf_heap (delete_child h p n) rt.
Proof.
  intros W. pose proof (extends_delete_child h p n) as [_ E].
  destruct W as [Wr Wrp Wrd Wlt Wsome Wch].
  split.
  - rewrite length_delete_child. assumption.
  - destruct (E rt Wr) as (_&_&->). assumption.
  - destruct (E rt Wr) as (_&->&_). assumption.
  - intros i q Hi. rewrite length_delete_child in Hi.
    destruct (E i Hi) as (_&_&->). auto.
  - intros i Hi Hrt. rewrite length_delete_child in Hi.
    destruct (E i Hi) as (_&_&->). auto.
  - intros i k d Hi Hin. rewrite length_delete_child in *.
    assert (Hin' : In (k, d) (children (deref h i))).
    { destruct (Nat.eq_dec i p) as [->|Hnp].
      - rewrite deref_delete_child_parent in Hin by assumption. simpl in Hin.
        apply Map_In_delete in Hin. tauto.
      - rewrite deref_delete_child_other in Hin by assumption. assumption. }
    destruct (Wch i k d Hi Hin') as (Hd&Hn&Hpar).
    destruct (E d Hd) as (->&_&->). auto.
Qed.

(** *** resolvePath stays inside the heap *)

Lemma step_bound h rt cur part r :
  wf_heap h rt -> cur < length h -> step h cur part = Some r -> r < length h.
Proof.
  intros W Hc. unfold step.
  destruct (String.eqb part "..").
  - destruct (parent (deref h cur)) as [p|] eqn:E; intros [= <-]; [|assumption].
    pose proof (wf_parent_lt _ _ W cur p Hc E). lia.
  - destruct (String.eqb part "."); simpl.
    + intros [= <-]. assumption.
    + intros H. apply Map_get_In in H.
      apply (wf_children _ _ W cur part r Hc H).
Qed.

Lemma walk_bound h rt parts : forall cur r,
  wf_heap h rt -> cur < length h -> walk h cur parts = Some r -> r < length h.
Proof.
  induction parts as [|part rest IH]; simpl; intros cur r W Hc.
  - intros [= <-]. assumption.
  - destruct (step h cur part) as [next|] eqn:E; [|discriminate].
    apply IH; [assumption|]. eapply step_bound; eassumption.
Qed.

Lemma resolvePath_bound fs path r :
  wf fs -> resolvePath fs path = Some r -> r < length (heap fs).
Proof.
  intros [W Hc _]. unfold resolvePath.
  destruct (falsy path); [intros [= <-]; assumption|].
  apply walk_bound with (rt := root fs); [assumption|].
  destruct (startsWith_slash (show path)); [apply (wf_root _ _ W)|assumption].
Qed.

(** *** Every method keeps the shape *)

Lemma mkdirp_loop_wf rt parts : forall h cur,
  wf_heap h rt -> cur < length h ->
  wf_heap (mkdirp_loop h cur parts) rt /\ extends h (mkdirp_loop h cur parts).
Proof.
  induction parts as [|part rest IH]; simpl; intros h cur W Hc.
  - split; [assumption|apply extends_refl].
  - set (h1 := if negb (Map_has (children (deref h cur)) part)
               then add_child h cur part directory "" else h).
    assert (W1 : wf_heap h1 rt /\ extends h h1).
    { subst h1. destruct (negb _).
      - split; [apply wf_heap_add_child|apply extends_add_child]; assumption.
      - split; [assumption|apply extends_refl]. }
    destruct W1 as [W1 E1].
    destruct (Map_get (children (deref h1 cur)) part) as [next|] eqn:G.
    + assert (Hn : next < length h1).
      { apply Map_get_In in G.
        apply (wf_children _ _ W1 cur part next); [destruct E1; lia|assumption]. }
      destruct (IH h1 next W1 Hn) as [W2 E2].
      split; [assumption|]. eapply extends_trans; eassumption.
    + split; assumption.
Qed.

Lemma wf_set_heap fs h :
  wf fs -> wf_heap h (root fs) -> extends (heap fs) h -> wf (set_heap fs h).
Proof.
  intros [W Hc Hd] W' [L E]. split; simpl.
  - assumption.
  - lia.
  - destruct (E _ Hc) as (_&->&_). assumption.
Qed.

Lemma wf_mkdirp fs path : wf fs -> wf (mkdirp fs path).1.
Proof.
  intros W. unfold mkdirp. simpl.
  destruct (mkdirp_loop_wf (root fs) (filter_Boolean (split path))
              (heap fs) (currentDir fs) (wf_h _ W) (wf_cwd _ W)).
  apply wf_set_heap; assumption.
Qed.

Lemma wf_mkdir fs n : wf fs -> wf (mkdir fs n).1.
Proof.
  intros W. unfold mkdir. destruct (Map_has _ n); simpl; [assumption|].
  apply wf_set_heap; [assumption| |].
  - apply wf_heap_add_child; [apply (wf_h _ W)|apply (wf_cwd _ W)].
  - apply extends_add_child, (wf_cwd _ W).
Qed.

Lemma wf_touch fs n : wf fs -> wf (touch fs n).1.
Proof.
  intros W. unfold touch. destruct (Map_has _ n); simpl; [assumption|].
  apply wf_set_heap; [assumption| |].
  - apply wf_heap_add_child; [apply (wf_h _ W)|apply (wf_cwd _ W)].
  - apply extends_add_child, (wf_cwd _ W).
Qed.

Lemma NodeType_eqb_eq a b : NodeType_eqb a b = true <-> a = b.
Proof. destruct a, b; simpl; split; congruence. Qed.

Lemma wf_set_currentDir fs r :
  wf fs -> r < length (heap fs) -> type (deref (heap fs) r) = directory ->
  wf (set_currentDir fs r).
Proof. intros [W _ _] Hr Hd. split; assumption. Qed.

Lemma wf_cd fs path : wf fs -> wf (cd fs path).1.
Proof.
  intros W. unfold cd. destruct (strict_eq path "/").
  - apply wf_set_currentDir;
      [assumption|apply (wf_root _ _ (wf_h _ W))|apply (wf_root_dir _ _ (wf_h _ W))].
  - destruct (resolvePath fs path) as [target|] eqn:R; [|assumption].
    destruct (NodeType_eqb (type (deref (heap fs) target)) directory) eqn:T;
      simpl; [|assumption].
    apply wf_set_currentDir; [assumption| |].
    + eapply resolvePath_bound; eassumption.
    + apply NodeType_eqb_eq, T.
Qed.

Lemma wf_rm fs path : wf fs -> wf (rm fs path).1.
Proof.
  intros W. unfold rm. destruct (falsy path); [assumption|].
  destruct (split_last (show path)) as [parentPath n].
  destruct (if Boolean parentPath then _ else _) as [p|]; [|assumption].
  destruct (Map_get _ n) as [target|]; [|assumption].
  destruct (NodeType_eqb _ directory); [assumption|]. simpl.
  apply wf_set_heap; [assumption| |].
  - apply wf_heap_delete_child, (wf_h _ W).
  - apply extends_delete_child.
Qed.

Lemma wf_rmdir fs path : wf fs -> wf (rmdir fs path).1.
Proof.
  intros W. unfold rmdir. destruct (falsy path); [assumption|].
  destruct (split_last (show path)) as [parentPath n].
  destruct (if Boolean parentPath then _ else _) as [p|]; [|assumption].
  destruct (negb (Map_has _ n)); [assumption|]. simpl.
  apply wf_set_heap; [assumption| |].
  - apply wf_heap_delete_child, (wf_h _ W).
  - apply extends_delete_child.
Qed.

(** *** The constructed instance, and every state after it *)

Lemma forallb_below (P : nat -> bool) n :
  forallb P (seq 0 n) = true -> forall i, i < n -> P i = true.
Proof.
  intros H i Hi. rewrite forallb_forall in H. apply H.
  apply in_seq. lia.
Qed.

Lemma option_ref_eqb_eq a b : option_ref_eqb a b = true -> a = b.
Proof.
  destruct a, b; simpl; try discriminate; try reflexivity.
  intros H. apply Nat.eqb_eq in H. congruence.
Qed.

Lemma wf_heapb_sound h rt : wf_heapb h rt = true -> wf_heap h rt.
Proof.
  unfold wf_heapb. intros H.
  apply andb_prop in H as [H Hcells]. apply andb_prop in H as [H Hdir].
  apply andb_prop in H as [Hrt Hpar].
  apply Nat.ltb_lt in Hrt. apply option_ref_eqb_eq in Hpar.
  apply NodeType_eqb_eq in Hdir.
  pose proof (forallb_below _ _ Hcells) as Hc. clear Hcells.
  split; try assumption.
  - intros i p Hi Hp. specialize (Hc i Hi). unfold cell_ok in Hc.
    rewrite Hp in Hc. apply andb_prop in Hc as [Hc _].
    apply Nat.ltb_lt in Hc. assumption.
  - intros i Hi Hne Hp. specialize (Hc i Hi). unfold cell_ok in Hc.
    rewrite Hp in Hc. apply andb_prop in Hc as [Hc _].
    apply Nat.eqb_eq in Hc. contradiction.
  - intros i k c Hi Hin. specialize (Hc i Hi). unfold cell_ok in Hc.
    apply andb_prop in Hc as [_ Hc]. rewrite forallb_forall in Hc.
    specialize (Hc (k, c) Hin). simpl in Hc.
    apply andb_prop in Hc as [Hc Hp]. apply andb_prop in Hc as [Hc Hn].
    apply Nat.ltb_lt in Hc. apply String.eqb_eq in Hn.
    apply option_ref_eqb_eq in Hp. auto.
Qed.

Lemma wf_new_FileSystem : wf new_FileSystem.
Proof.
  split.
  - apply wf_heapb_sound. vm_compute. reflexivity.
  - apply Nat.ltb_lt. vm_compute. reflexivity.
  - apply NodeType_eqb_eq. vm_compute. reflexivity.
Qed.

Lemma wf_run fs c : wf fs -> wf (run fs c).1.
Proof.
  destruct c; simpl.
  - apply wf_mkdirp.
  - apply wf_mkdir.
  - apply wf_touch.
  - apply wf_cd.
  - apply wf_rm.
  - apply wf_rmdir.
Qed.

Lemma reachable_wf fs : reachable fs -> wf fs.
Proof.
  induction 1 as [|fs c _ IH]; [apply wf_new_FileSystem|apply wf_run, IH].
Qed.

End FullHeap.

(** ** The complete class: cd, then pwd *)

Section FullRoundTrip.
Import Full.

Lemma walk_app h parts1 : forall cur parts2,
  walk h cur (parts1 ++ parts2) =
  match walk h cur parts1 with
  | None => None
  | Some m => walk h m parts2
  end.
Proof.
  induction parts1 as [|p parts1 IH]; simpl; intros cur parts2; [reflexivity|].
  destruct (step h cur p); [apply IH|reflexivity].
Qed.

Lemma step_plain h cur s :
  plain_segment s = true -> step h cur s = Map_get (children (deref h cur)) s.
Proof.
  intros H. apply plain_segment_spec in H as (_&_&Hdot&Hdots).
  unfold step. apply String.eqb_neq in Hdot, Hdots. rewrite Hdot, Hdots.
  reflexivity.
Qed.

(** Going down by a plain segment lands on a child that is not the root,
    is named by the segment and points back to where the step started. *)
Lemma step_plain_child h rt cur s n :
  wf_heap h rt -> cur < length h -> plain_segment s = true ->
  step h cur s = Some n ->
  n < length h /\ n <> rt /\ cur < n /\
  name (deref h n) = s /\ parent (deref h n) = Some cur.
Proof.
  intros W Hc Hs H. rewrite step_plain in H by assumption.
  apply Map_get_In in H.
  destruct (wf_children _ _ W cur s n Hc H) as (Hn&Hname&Hpar).
  repeat split; try assumption.
  - intros ->. rewrite (wf_root_parent _ _ W) in Hpar. discriminate.
  - apply (wf_parent_lt _ _ W n cur Hn Hpar).
Qed.

Lemma walk_plain_depth h rt segs : forall cur n,
  wf_heap h rt -> cur < length h ->
  Forall (fun s => plain_segment s = true) segs ->
  walk h cur segs = Some n -> cur + length segs <= n.
Proof.
  induction segs as [|s segs IH]; simpl; intros cur n W Hc HF.
  - intros [= <-]. lia.
  - inversion HF as [|? ? Hs HF']; subst.
    destruct (step h cur s) as [m|] eqn:E; [|discriminate].
    destruct (step_plain_child h rt cur s m W Hc Hs E) as (Hm&_&Hlt&_).
    intros Hw. specialize (IH m n W Hm HF' Hw). lia.
Qed.

(** Climbing from the end of a plain path collects its segments and
    arrives where the path started. *)
Lemma pwd_loop_walk h rt cur segs : forall n fuel acc,
  wf_heap h rt -> cur < length h ->
  Forall (fun s => plain_segment s = true) segs ->
  walk h cur segs = Some n ->
  pwd_loop (length segs + fuel) h rt (Some n) acc =
  pwd_loop fuel h rt (Some cur) (segs ++ acc).
Proof.
  induction segs as [|s segs IH] using rev_ind; intros n fuel acc W Hc HF Hw.
  - simpl in Hw. injection Hw as <-. reflexivity.
  - apply Forall_app in HF as [HF Hs]. inversion Hs as [|? ? Hs' _]; subst.
    rewrite walk_app in Hw.
    destruct (walk h cur segs) as [m|] eqn:Em; [|discriminate].
    simpl in Hw. destruct (step h m s) as [n'|] eqn:En; [|discriminate].
    injection Hw as ->.
    assert (Hm : m < length h) by (eapply walk_bound; eassumption).
    destruct (step_plain_child h rt m s n W Hm Hs' En) as (Hn&Hrt&_&Hname&Hpar).
    rewrite length_app. simpl length.
    replace (length segs + 1 + fuel) with (S (length segs + fuel)) by lia.
    simpl pwd_loop. apply Nat.eqb_neq in Hrt. rewrite Hrt, Hname, Hpar.
    rewrite (IH m fuel (s :: acc) W Hc HF eq_refl).
    rewrite <- app_assoc. reflexivity.
Qed.

Lemma pwd_loop_root fuel h rt acc :
  pwd_loop fuel h rt (Some rt) acc = Some ("" :: acc).
Proof. destruct fuel; simpl; rewrite Nat.eqb_refl; reflexivity. Qed.

Lemma join_abs_path segs :
  (let s := join "/" ("" :: segs) in if Boolean s then s else "/") = abs_path segs.
Proof. destruct segs as [|s segs]; reflexivity. Qed.

Lemma abs_path_not_slash s segs :
  Boolean s = true -> strict_eq (Some (abs_path (s :: segs))) "/" = false.
Proof.
  destruct s as [|c s]; [discriminate|]. intros _.
  destruct segs; reflexivity.
Qed.

(** pwd on the state in which the current directory is the end of a plain
    path from the root. *)
Lemma pwd_at fs segs n :
  wf_heap (heap fs) (root fs) ->
  Forall (fun s => plain_segment s = true) segs ->
  walk (heap fs) (root fs) segs = Some n ->
  pwd (set_currentDir fs n) = Some (abs_path segs).
Proof.
  intros W HF Hw. unfold pwd, pwd_fuel. simpl.
  pose proof (walk_plain_depth _ _ _ _ _ W (wf_root _ _ W) HF Hw) as Hd.
  pose proof (walk_bound _ _ _ _ _ W (wf_root _ _ W) Hw) as Hn.
  replace (length (heap fs))
    with (length segs + (length (heap fs) - length segs)) at 1 by lia.
  rewrite (pwd_loop_walk _ _ _ _ _ _ _ W (wf_root _ _ W) HF Hw).
  rewrite pwd_loop_root, app_nil_r. f_equal. apply join_abs_path.
Qed.

Lemma resolvePath_abs_path fs segs :
  Forall (fun s => plain_segment s = true) segs ->
  resolvePath fs (Some (abs_path segs)) = walk (heap fs) (root fs) segs.
Proof.
  intros HF. unfold resolvePath.
  change (falsy (Some (abs_path segs))) with false.
  change (show (Some (abs_path segs))) with (abs_path segs).
  change (startsWith_slash (abs_path segs)) with true.
  cbv beta iota zeta. rewrite parts_abs_path by assumption. reflexivity.
Qed.

(** The round trip on the complete class: cd to a normalised absolute
    path of a directory succeeds, and pwd then prints that path. *)
Theorem cd_pwd_roundtrip fs segs n :
  reachable fs ->
  Forall (fun s => plain_segment s = true) segs ->
  resolvePath fs (Some (abs_path segs)) = Some n ->
  type (deref (heap fs) n) = directory ->
  (cd fs (Some (abs_path segs))).2 = "" /\
  currentDir (cd fs (Some (abs_path segs))).1 = n /\
  pwd (cd fs (Some (abs_path segs))).1 = Some (abs_path segs).
Proof.
  intros R HF Hres Hdir. apply reachable_wf in R. destruct R as [W _ _].
  assert (Hw : walk (heap fs) (root fs) segs = Some n).
  { rewrite <- Hres. symmetry. apply resolvePath_abs_path. assumption. }
  assert (Hcd : cd fs (Some (abs_path segs)) = (set_currentDir fs n, "")).
  { destruct segs as [|s segs].
    - simpl in Hw. injection Hw as <-. reflexivity.
    - unfold cd. rewrite abs_path_not_slash.
      + rewrite Hres, Hdir. reflexivity.
      + inversion HF as [|? ? Hs _]; subst.
        apply plain_segment_spec in Hs. tauto. }
  rewrite Hcd. simpl. repeat split. apply pwd_at; assumption.
Qed.

Lemma cd_pwd_roundtrip_witness :
  pwd (cd new_FileSystem (Some "/thecmdchallenge/funcode/images")).1
  = Some "/thecmdchallenge/funcode/images".
Proof.
  apply (cd_pwd_roundtrip new_FileSystem ["thecmdchallenge"; "funcode"; "images"] 14).
  - apply reachable_new.
  - repeat constructor.
  - vm_compute; reflexivity.
  - vm_compute; reflexivity.
Defined.

(** pwd always answers on a state of the class: the parent links lead to
    the root, or to a detached cell's end, within the fuel. *)
Lemma pwd_loop_total h rt : wf_heap h rt -> forall fuel c acc,
  c < length h -> c < fuel \/ c = rt ->
  exists parts, pwd_loop fuel h rt (Some c) acc = Some parts.
Proof.
  intros W fuel. induction fuel as [|fuel IH]; intros c acc Hc Hf.
  - destruct Hf as [Hf| ->]; [lia|]. rewrite pwd_loop_root. eauto.
  - simpl. destruct (Nat.eqb c rt) eqn:E; [eauto|].
    apply Nat.eqb_neq in E.
    destruct (parent (deref h c)) as [p|] eqn:P.
    + pose proof (wf_parent_lt _ _ W c p Hc P).
      apply IH; [lia|]. destruct Hf; [left; lia|contradiction].
    + destruct fuel; simpl; eauto.
Qed.

Theorem pwd_total fs : reachable fs -> exists s, pwd fs = Some s.
Proof.
  intros R. apply reachable_wf in R. destruct R as [W Hc _].
  unfold pwd, pwd_fuel.
  destruct (pwd_loop_total _ _ W (length (heap fs)) (currentDir fs) [] Hc
              ltac:(left; assumption)) as [parts ->].
  eauto.
Qed.

Lemma pwd_loop_lineage h rt : wf_heap h rt -> forall fuel c acc,
  c < length h -> c < fuel \/ c = rt ->
  exists cells,
    lineage h rt c cells /\
    pwd_loop fuel h rt (Some c) acc =
      Some ("" :: map (fun x => name (deref h x)) cells ++ acc).
Proof.
  intros W fuel. induction fuel as [|fuel IH]; intros c acc Hc Hf.
  - destruct Hf as [Hf| ->]; [lia|]. rewrite pwd_loop_root.
    exists []. split; [apply lineage_root|reflexivity].
  - simpl. destruct (Nat.eqb c rt) eqn:E.
    + apply Nat.eqb_eq in E. subst c.
      exists []. split; [apply lineage_root|reflexivity].
    + apply Nat.eqb_neq in E.
      pose proof (wf_parent_some _ _ W c Hc E) as Hsome.
      destruct (parent (deref h c)) as [p|] eqn:P; [|congruence].
      pose proof (wf_parent_lt _ _ W c p Hc P).
      destruct (IH p (name (deref h c) :: acc)) as (cells & L & ->);
        [lia| |].
      * destruct Hf; [left; lia|contradiction].
      * exists (cells ++ [c]). split; [eapply lineage_child; eassumption|].
        rewrite map_app, <- app_assoc. reflexivity.
Qed.

(** The line of a cell is determined by the parent links. *)
Lemma lineage_unique h rt c cells1 :
  lineage h rt c cells1 -> forall cells2, lineage h rt c cells2 -> cells1 = cells2.
Proof.
  induction 1 as [|c p cells1 Hne Hp _ IH]; intros cells2 L2.
  - inversion L2 as [|c' p' cells' Hne' _ _]; [reflexivity|congruence].
  - inversion L2 as [E|c' p' cells' Hne' Hp' L']; subst; [congruence|].
    assert (p' = p) by congruence. subst p'. rewrite (IH _ L'). reflexivity.
Qed.

(** On every state of the class pwd answers, and prints a slash followed
    by the names of the cells from just below the root down to the
    current directory, along the parent links, joined by slashes; there
    are no such cells exactly at the root, where the answer is the single
    slash. *)
Theorem pwd_absolute fs :
  reachable fs ->
  (exists cells, lineage (heap fs) (root fs) (currentDir fs) cells) /\
  (forall cells,
     lineage (heap fs) (root fs) (currentDir fs) cells ->
     pwd fs = Some (abs_path (map (fun c => name (deref (heap fs) c)) cells)) /\
     (cells = [] <-> currentDir fs = root fs)).
Proof.
  intros R. apply reachable_wf in R. destruct R as [W Hc _].
  destruct (pwd_loop_lineage _ _ W (length (heap fs)) (currentDir fs) [] Hc
              ltac:(left; assumption)) as (cells & L & E).
  split; [eauto|]. intros cells' L'.
  rewrite <- (lineage_unique _ _ _ _ L _ L'). split.
  - unfold pwd, pwd_fuel. rewrite E, app_nil_r. f_equal. apply join_abs_path.
  - inversion L as [Hroot|c p l Hne _ _]; subst.
    + tauto.
    + split; [intros H; destruct l; discriminate H|intros H; congruence].
Qed.

End FullRoundTrip.

(** ** The complete class: resolution and navigation *)

Section FullResolve.
Import Full.

(** Where the walk starts. *)
Theorem resolvePath_start fs path :
  resolvePath fs path =
  if falsy path then Some (currentDir fs)
  else walk (heap fs)
         (if startsWith_slash (show path) then root fs else currentDir fs)
         (filter_Boolean (split (show path))).
Proof. reflexivity. Qed.

(** An absolute path resolves to the same node from every current
    directory. *)
Theorem resolvePath_absolute fs c p :
  startsWith_slash p = true ->
  resolvePath (set_currentDir fs c) (Some p) = resolvePath fs (Some p).
Proof.
  intros H. unfold resolvePath.
  destruct p as [|a p]; [discriminate|]. simpl falsy. cbv iota.
  simpl show. rewrite H. reflexivity.
Qed.

(** A relative path resolves as the walk of its segments from the
    current directory. *)
Theorem resolvePath_relative fs p :
  Boolean p = true -> startsWith_slash p = false ->
  resolvePath fs (Some p) = walk (heap fs) (currentDir fs) (filter_Boolean (split p)).
Proof.
  intros B H. unfold resolvePath. simpl. rewrite B, H. reflexivity.
Qed.

Theorem resolvePath_empty fs :
  resolvePath fs None = Some (currentDir fs) /\
  resolvePath fs (Some "") = Some (currentDir fs).
Proof. split; reflexivity. Qed.

(** [..] on the root stays on the root. *)
Theorem step_dotdot_root fs :
  reachable fs -> step (heap fs) (root fs) ".." = Some (root fs).
Proof.
  intros R. apply reachable_wf in R. unfold step. simpl.
  rewrite (wf_root_parent _ _ (wf_h _ R)). reflexivity.
Qed.

Theorem resolvePath_dotdot_root fs :
  reachable fs -> currentDir fs = root fs ->
  resolvePath fs (Some "..") = Some (root fs).
Proof.
  intros R E.
  change (resolvePath fs (Some ".."))
    with (match step (heap fs) (currentDir fs) ".." with
          | None => None
          | Some next => Some next
          end).
  rewrite E, (step_dotdot_root fs R). reflexivity.
Qed.

(** [..] on any other cell moves to its parent, which every such cell
    has. *)
Theorem step_dotdot_parent fs cur :
  reachable fs -> cur < length (heap fs) -> cur <> root fs ->
  exists p, parent (deref (heap fs) cur) = Some p /\
            step (heap fs) cur ".." = Some p.
Proof.
  intros R Hc Hne. apply reachable_wf in R.
  pose proof (wf_parent_some _ _ (wf_h _ R) cur Hc Hne) as Hp.
  unfold step. simpl. destruct (parent (deref (heap fs) cur)) as [p|]; [|congruence].
  eauto.
Qed.

(** [.] stays. *)
Theorem step_dot h cur : step h cur "." = Some cur.
Proof. reflexivity. Qed.

(** A file without children stops the walk at the first name that
    follows it; segments [.] in between change nothing. *)
Theorem walk_past_file h f dots s rest :
  children (deref h f) = [] ->
  Forall (fun d => d = ".") dots ->
  s <> "." -> s <> ".." ->
  walk h f (dots ++ s :: rest) = None.
Proof.
  intros Hch Hdots Hs1 Hs2. induction Hdots as [|d dots -> _ IH]; simpl.
  - unfold step. apply String.eqb_neq in Hs1, Hs2. rewrite Hs1, Hs2. simpl.
    rewrite Hch. reflexivity.
  - exact IH.
Qed.

(** cd, case by case. *)
Theorem cd_root fs : cd fs (Some "/") = (set_currentDir fs (root fs), "").
Proof. reflexivity. Qed.

Theorem cd_not_found fs path :
  path <> Some "/" -> resolvePath fs path = None ->
  cd fs path = (fs, "cd: " +:+ show path +:+ ": No such directory").
Proof.
  intros Hne Hr. unfold cd.
  destruct (strict_eq path "/") eqn:E.
  - destruct path as [p|]; [|discriminate]. apply String.eqb_eq in E. congruence.
  - rewrite Hr. reflexivity.
Qed.

Theorem cd_not_a_directory fs path target :
  path <> Some "/" -> resolvePath fs path = Some target ->
  type (deref (heap fs) target) = file ->
  cd fs path = (fs, "cd: " +:+ show path +:+ ": Not a directory").
Proof.
  intros Hne Hr Ht. unfold cd.
  destruct (strict_eq path "/") eqn:E.
  - destruct path as [p|]; [|discriminate]. apply String.eqb_eq in E. congruence.
  - rewrite Hr, Ht. reflexivity.
Qed.

Theorem cd_directory fs path target :
  path <> Some "/" -> resolvePath fs path = Some target ->
  type (deref (heap fs) target) = directory ->
  cd fs path = (set_currentDir fs target, "").
Proof.
  intros Hne Hr Ht. unfold cd.
  destruct (strict_eq path "/") eqn:E.
  - destruct path as [p|]; [|discriminate]. apply String.eqb_eq in E. congruence.
  - rewrite Hr, Ht. reflexivity.
Qed.

End FullResolve.

(** ** The reduced class *)

Section LibFacts.

(** The state of the reduced class after its own
    [fs.cd('thecmdchallenge')]. *)
Lemma Lib_cd_thecmdchallenge :
  Lib.cd Lib.fs (Some "thecmdchallenge") =
  Lib.Return (Lib.set_currentDir Lib.fs 1, true).
Proof. reflexivity. Qed.

(** A leading slash changes nothing in the reduced class: the walk
    starts at the current directory all the same. *)
Lemma Lib_resolvePath_leading_slash fs p :
  Lib.resolvePath fs (Some ("/" +:+ p)) = Lib.resolvePath fs (Some p).
Proof. reflexivity. Qed.

(** cd to the single slash keeps the current directory, whatever it is. *)
Lemma Lib_cd_slash fs :
  Lib.isDirectory (Lib.deref (Lib.heap fs) (Lib.currentDir fs)) = true ->
  Lib.cd fs (Some "/") = Lib.Return (fs, true).
Proof.
  intros H. unfold Lib.cd. simpl. rewrite H. destruct fs; reflexivity.
Qed.

(** Past a file every further segment is skipped. *)
Lemma Lib_walk_file h f parts :
  Lib.isDirectory (Lib.deref h f) = false -> Lib.walk h f parts = Some f.
Proof.
  intros H. induction parts as [|p parts IH]; simpl; [reflexivity|].
  rewrite H. exact IH.
Qed.

(** C1 (code of the reduced class against the claim).  In the reduced
    class, cd to the normalised absolute path [/thecmdchallenge] of a
    directory succeeds, and pwd then answers the bare name
    [thecmdchallenge], without the leading slash; the same holds after
    the relative [cd('thecmdchallenge')] of the file's own trial, whose
    comment expects [/thecmdchallenge].  The complete class answers
    [/thecmdchallenge] (see [cd_pwd_roundtrip]). *)
Theorem C1_lib_pwd_bare_name :
  Lib.cd Lib.fs (Some "/thecmdchallenge")
    = Lib.Return (Lib.set_currentDir Lib.fs 1, true) /\
  Lib.cd Lib.fs (Some "thecmdchallenge")
    = Lib.Return (Lib.set_currentDir Lib.fs 1, true) /\
  Lib.pwd (Lib.set_currentDir Lib.fs 1) = "thecmdchallenge" /\
  Lib.pwd (Lib.set_currentDir Lib.fs 1) <> "/thecmdchallenge" /\
  Full.pwd (Full.cd Full.new_FileSystem (Some "/thecmdchallenge")).1
    = Some "/thecmdchallenge".
Proof. cbv zeta. repeat split; try (vm_compute; reflexivity); vm_compute; discriminate. Qed.

(** C2 (code of the reduced class against the claim).  With the current
    directory at [thecmdchallenge], the reduced class resolves the
    absolute path [/thecmdchallenge] from the current directory, not
    from the root, and answers null, although the walk from the root
    finds the directory; and an absent path raises instead of returning
    the current directory.  The complete class starts at the root
    (see [resolvePath_start]). *)
Theorem C2_lib_resolve_ignores_root :
  let fs1 := Lib.set_currentDir Lib.fs 1 in
  Lib.resolvePath fs1 (Some "/thecmdchallenge") = Lib.Return None /\
  Lib.walk (Lib.heap fs1) (Lib.root fs1)
    (filter_Boolean (split "/thecmdchallenge")) = Some 1 /\
  Lib.resolvePath fs1 None = Lib.TypeError /\
  Full.resolvePath (Full.cd Full.new_FileSystem (Some "thecmdchallenge")).1
    (Some "/thecmdchallenge") = Some 1.
Proof. cbv zeta. repeat split; vm_compute; reflexivity. Qed.

(** C3 (code of the reduced class against the claim).  In the reduced
    class a path that runs through the file [file1.txt] and goes on with
    the name [nope] resolves, to the file itself: the segment after the
    file is skipped.  The complete class answers null on the like path
    (see [walk_past_file]). *)
Theorem C3_lib_skips_segments :
  Lib.resolvePath Lib.fs
    (Some "thecmdchallenge/home/user/documents/file1.txt/nope")
    = Lib.Return (Some 5) /\
  Lib.name (Lib.deref (Lib.heap Lib.fs) 5) = "file1.txt" /\
  Lib.type (Lib.deref (Lib.heap Lib.fs) 5) = file /\
  Full.resolvePath Full.new_FileSystem
    (Some "thecmdchallenge/the-ultimate-joke.txt/nope") = None.
Proof. cbv zeta. repeat split; vm_compute; reflexivity. Qed.

(** C4 (code of the reduced class against the claim).  In the reduced
    class [resolvePath("..")] at the root answers null: [..] is looked up
    as a child name; one level down it answers null as well instead of
    the parent.  The complete class answers the root, and the parent
    (see [resolvePath_dotdot_root], [step_dotdot_parent]). *)
Theorem C4_lib_dotdot_fails :
  Lib.currentDir Lib.fs = Lib.root Lib.fs /\
  Lib.resolvePath Lib.fs (Some "..") = Lib.Return None /\
  Lib.resolvePath (Lib.set_currentDir Lib.fs 1) (Some "..") = Lib.Return None /\
  Full.resolvePath Full.new_FileSystem (Some "..") = Some 0 /\
  Full.resolvePath (Full.cd Full.new_FileSystem (Some "thecmdchallenge")).1
    (Some "..") = Some 0.
Proof. cbv zeta. repeat split; vm_compute; reflexivity. Qed.

(** C5 (code of the reduced class against the claim).  In the reduced
    class, with the current directory at [thecmdchallenge], [cd("/")]
    reports success and leaves the current directory where it was, not at
    the root.  The complete class moves to the root (see [cd_root]). *)
Theorem C5_lib_cd_slash_stays :
  let fs1 := Lib.set_currentDir Lib.fs 1 in
  Lib.cd fs1 (Some "/") = Lib.Return (fs1, true) /\
  Lib.currentDir fs1 <> Lib.root fs1 /\
  Full.currentDir
    (Full.cd (Full.cd Full.new_FileSystem (Some "thecmdchallenge")).1 (Some "/")).1
    = Full.root Full.new_FileSystem.
Proof. cbv zeta. repeat split; try (vm_compute; reflexivity); vm_compute; discriminate. Qed.

End LibFacts.

(** ** The complete class: removal *)

Section FullRemoval.
Import Full.

Lemma split_last_spec path :
  last_segment path (split_last path).1 (split_last path).2.
Proof.
  unfold split_last.
  destruct (pop_inv (split path) (split_nonempty path)) as (init & x & E & ->).
  simpl. pose proof (split_Forall_no_slash path) as HF. rewrite E in HF.
  apply Forall_app in HF as [_ Hx]. inversion Hx as [|? ? Hx' _]; subst.
  split; [assumption|].
  pose proof (join_split path) as J. rewrite E in J.
  destruct init as [|y init].
  - left. simpl in J. subst x. auto.
  - right. rewrite join_snoc in J by discriminate. symmetry. exact J.
Qed.

Lemma split_last_intro path prefix n :
  last_segment path prefix n -> split_last path = (prefix, n).
Proof.
  intros [Hn [(Hp & -> & ->)| ->]]; unfold split_last.
  - rewrite (split_no_slash _ Hp). reflexivity.
  - rewrite (split_snoc _ _ Hn), pop_snoc, join_split. reflexivity.
Qed.

(** A cell outside the heap has no children, so every edge starts inside. *)
Lemma edge_in_range h c k d :
  Map_get (children (deref h c)) k = Some d -> c < length h.
Proof.
  intros H. destruct (Nat.lt_ge_cases c (length h)) as [|Hge]; [assumption|].
  unfold deref in H. rewrite list_lookup_total_alt in H.
  rewrite (proj2 (lookup_ge_None h c)) in H by lia. discriminate.
Qed.

Lemma delete_child_unlinked h p n :
  p < length h -> unlinked h p n (delete_child h p n).
Proof.
  intros Hp. unfold unlinked. rewrite length_delete_child.
  rewrite deref_delete_child_parent by assumption. simpl.
  repeat split.
  - intros i Hi. apply deref_delete_child_other. assumption.
  - apply Map_get_delete_eq.
  - intros k Hk. apply Map_get_delete_ne. assumption.
Qed.

Lemma rm_unfold fs path :
  rm fs path =
  if falsy path then (fs, "rm: missing operand")
  else
    match parent_of fs (split_last (show path)).1 with
    | None => (fs, "rm: " +:+ show path +:+ ": No such file or directory")
    | Some p =>
        match Map_get (children (deref (heap fs) p)) (split_last (show path)).2 with
        | None => (fs, "rm: " +:+ show path +:+ ": No such file or directory")
        | Some target =>
            if NodeType_eqb (type (deref (heap fs) target)) directory
            then (fs, "rm: " +:+ show path +:+ ": Is a directory")
            else (set_heap fs
                    (delete_child (heap fs) p (split_last (show path)).2), "")
        end
    end.
Proof.
  unfold rm, parent_of. destruct (falsy path); [reflexivity|].
  destruct (split_last (show path)) as [pp n]. reflexivity.
Qed.

Lemma rmdir_unfold fs path :
  rmdir fs path =
  if falsy path then (fs, "rm: missing operand")
  else
    match parent_of fs (split_last (show path)).1 with
    | None => (fs, "rm: " +:+ show path +:+ ": No such file or directory")
    | Some p =>
        match Map_get (children (deref (heap fs) p)) (split_last (show path)).2 with
        | None => (fs, "rm: " +:+ show path +:+ ": No such file or directory")
        | Some target =>
            (set_heap fs (delete_child (heap fs) p (split_last (show path)).2), "")
        end
    end.
Proof.
  unfold rmdir, parent_of, Map_has. destruct (falsy path); [reflexivity|].
  destruct (split_last (show path)) as [pp n]. simpl.
  destruct (if Boolean pp then _ else _) as [p|]; [|reflexivity].
  destruct (Map_get _ n); reflexivity.
Qed.

(** C6.  removeFile, outcome by outcome: a missing operand on an empty
    (or absent) path; otherwise, with the name after the last slash and
    the parent resolved from what precedes it (the current directory when
    that is empty), not-found when the parent or the named child is
    absent, is-a-directory when the child is a directory, the state
    unchanged in each of these cases; and otherwise the empty status and
    a heap in which only that name has left the parent's children. *)
Theorem C6_rm_outcomes fs path : removeFile_spec fs path (rm fs path).
Proof.
  rewrite rm_unfold. destruct (falsy path) eqn:F.
  - apply removeFile_missing_operand. assumption.
  - pose proof (split_last_spec (show path)) as L.
    destruct (split_last (show path)) as [prefix n]. simpl in *.
    destruct (parent_of fs prefix) as [p|] eqn:P.
    + destruct (Map_get (children (deref (heap fs) p)) n) as [target|] eqn:G.
      * destruct (type (deref (heap fs) target)) eqn:T; simpl.
        -- eapply removeFile_unlinks; try eassumption.
           apply delete_child_unlinked. eapply edge_in_range. eassumption.
        -- eapply removeFile_is_a_directory; eassumption.
      * eapply removeFile_no_child; eassumption.
    + eapply removeFile_no_parent; eassumption.
Qed.

(** C7.  removeDirectory addresses parent and name as removeFile does,
    and unlinks the named child whenever it exists, file or directory:
    the status is empty and only that name has left the parent's
    children.  Where removeFile does not answer is-a-directory the two
    agree, state and status. *)
Theorem C7_rmdir_any_kind fs path prefix n p target :
  falsy path = false ->
  last_segment (show path) prefix n ->
  parent_of fs prefix = Some p ->
  Map_get (children (deref (heap fs) p)) n = Some target ->
  (exists h', rmdir fs path = (set_heap fs h', "") /\
              unlinked (heap fs) p n h') /\
  (type (deref (heap fs) target) = file -> rmdir fs path = rm fs path) /\
  (type (deref (heap fs) target) = directory ->
     rm fs path = (fs, "rm: " +:+ show path +:+ ": Is a directory")).
Proof.
  intros F L P G. apply split_last_intro in L.
  rewrite rmdir_unfold, rm_unfold, F, L. simpl. rewrite P, G.
  split; [|split].
  - eexists. split; [reflexivity|].
    apply delete_child_unlinked. eapply edge_in_range. eassumption.
  - intros ->. reflexivity.
  - intros ->. reflexivity.
Qed.

Lemma C7_rmdir_any_kind_witness :
  exists h',
    rmdir new_FileSystem (Some "thecmdchallenge/the-ultimate-joke.txt")
      = (set_heap new_FileSystem h', "") /\
    unlinked (heap new_FileSystem) 1 "the-ultimate-joke.txt" h'.
Proof.
  apply (C7_rmdir_any_kind new_FileSystem
           (Some "thecmdchallenge/the-ultimate-joke.txt")
           "thecmdchallenge" "the-ultimate-joke.txt" 1 2).
  - vm_compute; reflexivity.
  - split; [vm_compute; reflexivity|right; reflexivity].
  - vm_compute; reflexivity.
  - vm_compute; reflexivity.
Defined.

(** Where the path names nothing, removeDirectory fails as removeFile
    does. *)
Theorem rmdir_fails_as_rm fs path :
  (rmdir fs path).2 <> "" -> rmdir fs path = rm fs path.
Proof.
  rewrite rmdir_unfold, rm_unfold. destruct (falsy path); [reflexivity|].
  destruct (parent_of fs _) as [p|]; [|reflexivity].
  destruct (Map_get _ _) as [t|]; [|reflexivity].
  simpl. congruence.
Qed.

End FullRemoval.

(** ** The complete class: what stays reachable from the root *)

Section FullReachability.
Import Full.

Lemma descends_trans_child h r c k d :
  descends h r c -> Map_get (children (deref h c)) k = Some d -> descends h r d.
Proof. intros. eapply descends_child; eassumption. Qed.

Lemma edge_child h rt c k d :
  wf_heap h rt -> Map_get (children (deref h c)) k = Some d ->
  d < length h /\ name (deref h d) = k /\ parent (deref h d) = Some c.
Proof.
  intros W G. pose proof (edge_in_range _ _ _ _ G) as Hc.
  apply Map_get_In in G. apply (wf_children _ _ W c k d Hc G).
Qed.

Lemma no_edge_to_root h rt c k :
  wf_heap h rt -> Map_get (children (deref h c)) k = Some rt -> False.
Proof.
  intros W G. destruct (edge_child _ _ _ _ _ W G) as (_&_&P).
  rewrite (wf_root_parent _ _ W) in P. discriminate.
Qed.

(** The edges that survive a deletion. *)
Lemma edge_after_delete h p n c k d :
  Map_get (children (deref (delete_child h p n) c)) k = Some d ->
  Map_get (children (deref h c)) k = Some d /\ (c = p -> k <> n).
Proof.
  intros G. destruct (Nat.eq_dec c p) as [->|Hne].
  - destruct (Nat.lt_ge_cases p (length h)) as [Hp|Hp].
    + rewrite deref_delete_child_parent in G by assumption. simpl in G.
      destruct (String.eqb k n) eqn:E.
      * apply String.eqb_eq in E. subst k. rewrite Map_get_delete_eq in G.
        discriminate.
      * apply String.eqb_neq in E. rewrite Map_get_delete_ne in G by assumption.
        auto.
    + exfalso. apply edge_in_range in G. rewrite length_delete_child in G. lia.
  - rewrite deref_delete_child_other in G by assumption. split; [assumption|].
    congruence.
Qed.

Lemma edge_before_delete h p n c k d :
  Map_get (children (deref h c)) k = Some d -> (c = p -> k <> n) ->
  Map_get (children (deref (delete_child h p n) c)) k = Some d.
Proof.
  intros G Hk. destruct (Nat.eq_dec c p) as [->|Hne].
  - pose proof (edge_in_range _ _ _ _ G) as Hp.
    rewrite deref_delete_child_parent by assumption. simpl.
    rewrite Map_get_delete_ne by auto. assumption.
  - rewrite deref_delete_child_other by assumption. assumption.
Qed.

(** Once the name [n] has left [p], nothing below the child it named can
    be reached from the root any more. *)
Lemma delete_child_detaches h rt p n t :
  wf_heap h rt -> Map_get (children (deref h p)) n = Some t ->
  forall d, descends (delete_child h p n) rt d -> ~ descends h t d.
Proof.
  intros W Gt d D. destruct (edge_child _ _ _ _ _ W Gt) as (_&Nt&Pt).
  induction D as [|c k d D IH G].
  - intros Dt. inversion Dt as [E|c' k' d' _ G']; subst.
    + rewrite (wf_root_parent _ _ W) in Pt. discriminate.
    + eapply no_edge_to_root; eassumption.
  - apply edge_after_delete in G as [G Hk].
    destruct (edge_child _ _ _ _ _ W G) as (_&Nd&Pd).
    intros Dt. inversion Dt as [E|c' k' d' Dc' G']; subst.
    + assert (c = p) by congruence. subst c. apply Hk; [reflexivity|].
      congruence.
    + destruct (edge_child _ _ _ _ _ W G') as (_&_&Pd').
      assert (c' = c) by congruence. subst c'. apply IH. assumption.
Qed.

(** What is not below the removed child stays reachable. *)
Lemma delete_child_keeps h rt p n t :
  Map_get (children (deref h p)) n = Some t ->
  forall d, descends h rt d -> ~ descends h t d ->
  descends (delete_child h p n) rt d.
Proof.
  intros Gt d D. induction D as [|c k d D IH G]; intros Hnot.
  - apply descends_refl.
  - apply descends_child with (c := c) (k := k).
    + apply IH. intros Dc. apply Hnot. eapply descends_child; eassumption.
    + apply edge_before_delete; [assumption|].
      intros -> ->. apply Hnot. rewrite Gt in G. injection G as <-.
      apply descends_refl.
Qed.

(** C10.  removeDirectory asks nothing about the contents of what it
    removes: on a path that names a directory with children it returns
    the empty status at once, only the name leaves the parent's children,
    and with it the whole subtree is lost from the root: the child and
    everything that could be reached below it. *)
Theorem C10_rmdir_nonempty fs path prefix n p target :
  reachable fs ->
  falsy path = false ->
  last_segment (show path) prefix n ->
  parent_of fs prefix = Some p ->
  Map_get (children (deref (heap fs) p)) n = Some target ->
  type (deref (heap fs) target) = directory ->
  children (deref (heap fs) target) <> [] ->
  exists h',
    rmdir fs path = (set_heap fs h', "") /\
    unlinked (heap fs) p n h' /\
    children (deref h' target) = children (deref (heap fs) target) /\
    forall d, descends (heap fs) target d -> ~ descends h' (root fs) d.
Proof.
  intros R F L P G T Hne. apply reachable_wf in R. destruct R as [W _ _].
  apply split_last_intro in L.
  rewrite rmdir_unfold, F, L. simpl. rewrite P, G.
  pose proof (edge_in_range _ _ _ _ G) as Hp.
  destruct (edge_child _ _ _ _ _ W G) as (Ht&_&Pt).
  eexists. split; [reflexivity|]. split; [|split].
  - apply delete_child_unlinked. assumption.
  - rewrite deref_delete_child_other; [reflexivity|].
    pose proof (wf_parent_lt _ _ W target p Ht Pt). lia.
  - intros d Dt D. eapply delete_child_detaches; eassumption.
Qed.

Lemma C10_rmdir_nonempty_witness :
  exists h',
    rmdir new_FileSystem (Some "thecmdchallenge/funcode")
      = (set_heap new_FileSystem h', "") /\
    unlinked (heap new_FileSystem) 1 "funcode" h' /\
    children (deref h' 11) = children (deref (heap new_FileSystem) 11) /\
    forall d, descends (heap new_FileSystem) 11 d ->
              ~ descends h' (root new_FileSystem) d.
Proof.
  apply (C10_rmdir_nonempty new_FileSystem (Some "thecmdchallenge/funcode")
           "thecmdchallenge" "funcode" 1 11).
  - apply reachable_new.
  - vm_compute; reflexivity.
  - split; [vm_compute; reflexivity|right; reflexivity].
  - vm_compute; reflexivity.
  - vm_compute; reflexivity.
  - vm_compute; reflexivity.
  - vm_compute; discriminate.
Defined.

End FullReachability.

(** ** The complete class: the current directory *)

Section FullCursor.
Import Full.

(** The run of the test [files_emptyb] decides [files_empty]. *)
Lemma files_emptyb_sound h : files_emptyb h = true -> files_empty h.
Proof.
  intros H i Hi Hf. pose proof (forallb_below _ _ H i Hi) as Hc.
  simpl in Hc. rewrite Hf in Hc.
  destruct (children (deref h i)); [reflexivity|discriminate].
Qed.

(** resolvePath from a cell below the root ends below the root. *)
Lemma step_descends h rt cur part r :
  wf_heap h rt -> descends h rt cur -> step h cur part = Some r ->
  descends h rt r.
Proof.
  intros W D. unfold step. destruct (String.eqb part "..").
  - destruct (parent (deref h cur)) as [q|] eqn:P; intros [= <-]; [|assumption].
    inversion D as [E|c k d Dc G]; subst.
    + rewrite (wf_root_parent _ _ W) in P. discriminate.
    + destruct (edge_child _ _ _ _ _ W G) as (_&_&P').
      assert (c = q) by congruence. subst c. assumption.
  - destruct (String.eqb part "."); simpl.
    + intros [= <-]. assumption.
    + intros G. eapply descends_child; eassumption.
Qed.

Lemma walk_descends h rt parts : forall cur r,
  wf_heap h rt -> descends h rt cur -> walk h cur parts = Some r ->
  descends h rt r.
Proof.
  induction parts as [|part rest IH]; simpl; intros cur r W D.
  - intros [= <-]. assumption.
  - destruct (step h cur part) as [next|] eqn:E; [|discriminate].
    apply IH; [assumption|]. eapply step_descends; eassumption.
Qed.

(** A new child under a fresh name leaves every edge in place. *)
Lemma edge_add_child h p n t c0 c k d :
  p < length h -> Map_get (children (deref h p)) n = None ->
  Map_get (children (deref h c)) k = Some d ->
  Map_get (children (deref (add_child h p n t c0) c)) k = Some d.
Proof.
  intros Hp Hfresh G. pose proof (edge_in_range _ _ _ _ G) as Hc.
  destruct (Nat.eq_dec c p) as [->|Hne].
  - rewrite deref_add_child_parent by assumption. simpl.
    rewrite Map_get_set_ne; [assumption|]. intros ->. congruence.
  - rewrite deref_add_child_other by assumption. assumption.
Qed.

Lemma descends_add_child h p n t c0 r d :
  p < length h -> Map_get (children (deref h p)) n = None ->
  descends h r d -> descends (add_child h p n t c0) r d.
Proof.
  intros Hp Hfresh D. induction D as [|c k d D IH G].
  - apply descends_refl.
  - apply descends_child with (c := c) (k := k); [exact IH|].
    apply edge_add_child; assumption.
Qed.

Lemma descends_mkdirp_loop rt parts : forall h cur r d,
  wf_heap h rt -> cur < length h ->
  descends h r d -> descends (mkdirp_loop h cur parts) r d.
Proof.
  induction parts as [|part rest IH]; simpl; intros h cur r d W Hc D;
    [assumption|].
  set (h1 := if negb (Map_has (children (deref h cur)) part)
             then add_child h cur part directory "" else h).
  assert (H1 : wf_heap h1 rt /\ length h <= length h1 /\ descends h1 r d).
  { subst h1. destruct (Map_has _ part) eqn:E; simpl.
    - auto.
    - apply Map_has_false in E. split; [|split].
      + apply wf_heap_add_child; assumption.
      + rewrite length_add_child. lia.
      + apply descends_add_child; assumption. }
  destruct H1 as (W1 & L1 & D1).
  destruct (Map_get (children (deref h1 cur)) part) as [next|] eqn:G;
    [|assumption].
  apply IH; [assumption| |assumption].
  apply (edge_child _ _ _ _ _ W1 G).
Qed.

(** A cell without children reaches only itself. *)
Lemma descends_leaf h r d :
  children (deref h r) = [] -> descends h r d -> d = r.
Proof.
  intros Hr D. induction D as [|c k d _ IH G]; [reflexivity|].
  subst c. rewrite Hr in G. discriminate G.
Qed.

(** Going down never leads to a cell created earlier. *)
Lemma descends_le h rt a d : wf_heap h rt -> descends h a d -> a <= d.
Proof.
  intros W D. induction D as [|c k d _ IH G]; [lia|].
  destruct (edge_child _ _ _ _ _ W G) as (Hd & _ & Hp).
  pose proof (wf_parent_lt _ _ W d c Hd Hp). lia.
Qed.

(** What rm unlinks when it succeeds is a file; where files have no
    children, nothing hangs below it, the current directory least of
    all. *)
Lemma rm_target_not_above fs p n t :
  wf fs -> files_empty (heap fs) ->
  Map_get (children (deref (heap fs) p)) n = Some t ->
  NodeType_eqb (type (deref (heap fs) t)) directory = false ->
  ~ descends (heap fs) t (currentDir fs).
Proof.
  intros [W Hc Hd] HF G Ht D.
  destruct (edge_child _ _ _ _ _ W G) as (Hlt & _ & _).
  assert (Hfile : type (deref (heap fs) t) = file)
    by (destruct (type (deref (heap fs) t)); [reflexivity|discriminate Ht]).
  apply descends_leaf in D; [|apply HF; assumption].
  rewrite D, Hfile in Hd. discriminate Hd.
Qed.

(** C9 (as amended).  On every state of the class, before and after
    every method, the current directory is a cell of the heap of kind
    directory.  A method keeps it reachable from the root through the
    children maps: mkdirp, mkdir, touch and cd always; rm where files
    have no children; rmdir unless it succeeds and the child it unlinks
    is the current directory or one of the cells above it.  In that case
    the current directory is left as it is and can no longer be reached
    from the root. *)
Theorem C9_cursor_kept fs c :
  reachable fs ->
  (currentDir fs < length (heap fs) /\
   type (deref (heap fs) (currentDir fs)) = directory /\
   currentDir (run fs c).1 < length (heap (run fs c).1) /\
   type (deref (heap (run fs c).1) (currentDir (run fs c).1)) = directory) /\
  (descends (heap fs) (root fs) (currentDir fs) ->
   (forall path, c = Rm path -> files_empty (heap fs)) ->
   (forall path t,
      c = Rmdir path -> (run fs c).2 = "" ->
      removal_target fs path = Some t ->
      ~ descends (heap fs) t (currentDir fs)) ->
   descends (heap (run fs c).1) (root (run fs c).1) (currentDir (run fs c).1)) /\
  (forall path t,
     c = Rmdir path -> (run fs c).2 = "" ->
     removal_target fs path = Some t ->
     descends (heap fs) t (currentDir fs) ->
     currentDir (run fs c).1 = currentDir fs /\
     ~ descends (heap (run fs c).1) (root (run fs c).1)
         (currentDir (run fs c).1)).
Proof.
  intros R.
  pose proof (reachable_wf _ (reachable_run fs c R)) as W'.
  pose proof (reachable_wf _ R) as Wfs.
  split; [|split].
  - split; [apply (wf_cwd _ Wfs)|]. split; [apply (wf_cwd_dir _ Wfs)|].
    split; [apply (wf_cwd _ W')|apply (wf_cwd_dir _ W')].
  - clear W'. intros D Hfiles Hrem. destruct Wfs as [W Hc Hd].
    destruct c as [path|n|n|path|path|path]; simpl in *.
    + apply descends_mkdirp_loop with (rt := root fs); assumption.
    + unfold mkdir. destruct (Map_has _ n) eqn:E; simpl; [assumption|].
      apply Map_has_false in E. apply descends_add_child; assumption.
    + unfold touch. destruct (Map_has _ n) eqn:E; simpl; [assumption|].
      apply Map_has_false in E. apply descends_add_child; assumption.
    + unfold cd. destruct (strict_eq path "/"); simpl; [apply descends_refl|].
      destruct (resolvePath fs path) as [target|] eqn:Rp; [|assumption].
      destruct (negb _); simpl; [assumption|].
      unfold resolvePath in Rp. destruct (falsy path); [congruence|].
      eapply walk_descends; [exact W| |exact Rp].
      destruct (startsWith_slash _); [apply descends_refl|assumption].
    + specialize (Hfiles path eq_refl).
      rewrite rm_unfold. destruct (falsy path); [assumption|].
      destruct (parent_of fs _) as [p|]; [|assumption].
      destruct (Map_get _ _) as [t|] eqn:G; [|assumption].
      destruct (NodeType_eqb _ directory) eqn:T; [assumption|]. simpl.
      eapply delete_child_keeps; [exact G|assumption|].
      eapply rm_target_not_above; [split; eassumption|assumption|exact G|exact T].
    + specialize (Hrem path). unfold removal_target in Hrem.
      rewrite rmdir_unfold in *. destruct (falsy path); [assumption|].
      destruct (parent_of fs _) as [p|]; [|assumption].
      destruct (Map_get _ _) as [t|] eqn:G; [|assumption]. simpl in *.
      eapply delete_child_keeps; [exact G|assumption|].
      apply Hrem; auto.
  - clear W'. intros path t -> Hok Ht D. destruct Wfs as [W Hc Hd].
    simpl in *. unfold removal_target in Ht. rewrite rmdir_unfold in *.
    destruct (falsy path); [discriminate Ht|].
    destruct (parent_of fs _) as [p|]; [|discriminate Ht].
    destruct (Map_get _ _) as [t'|] eqn:G; [|discriminate Ht].
    injection Ht as ->. simpl. split; [reflexivity|].
    intros D'. eapply delete_child_detaches; eassumption.
Qed.

(** The hypotheses of C9 met by real removals.  From the directory
    [funcode] of the fresh instance: [rmdir("images")] unlinks a child
    that is not above the current directory, and [rm("kids.jpg")] acts on
    a heap whose files have no children; both keep the current directory
    reachable.  [rmdir("../../thecmdchallenge")] unlinks a cell above it
    and leaves it detached. *)
Lemma C9_cursor_kept_witness :
  let fs1 := (run new_FileSystem (Cd (Some "thecmdchallenge/funcode"))).1 in
  (descends (heap (run fs1 (Rmdir (Some "images"))).1)
     (root (run fs1 (Rmdir (Some "images"))).1)
     (currentDir (run fs1 (Rmdir (Some "images"))).1)) /\
  (descends (heap (run fs1 (Rm (Some "kids.jpg"))).1)
     (root (run fs1 (Rm (Some "kids.jpg"))).1)
     (currentDir (run fs1 (Rm (Some "kids.jpg"))).1)) /\
  (currentDir (run fs1 (Rmdir (Some "../../thecmdchallenge"))).1
     = currentDir fs1 /\
   ~ descends (heap (run fs1 (Rmdir (Some "../../thecmdchallenge"))).1)
       (root (run fs1 (Rmdir (Some "../../thecmdchallenge"))).1)
       (currentDir (run fs1 (Rmdir (Some "../../thecmdchallenge"))).1)).
Proof.
  cbv zeta.
  set (fs1 := (run new_FileSystem (Cd (Some "thecmdchallenge/funcode"))).1).
  assert (R1 : reachable fs1) by (apply reachable_run, reachable_new).
  assert (D1 : descends (heap fs1) (root fs1) (currentDir fs1)).
  { apply (proj1 (proj2 (C9_cursor_kept new_FileSystem
                           (Cd (Some "thecmdchallenge/funcode")) reachable_new))).
    - apply descends_refl.
    - intros path H. discriminate H.
    - intros path t H. discriminate H. }
  split; [|split].
  - apply (proj1 (proj2 (C9_cursor_kept fs1 (Rmdir (Some "images")) R1))).
    + exact D1.
    + intros path H. discriminate H.
    + intros path t H _ Ht D. injection H as <-.
      vm_compute in Ht. injection Ht as <-.
      apply (descends_le _ _ _ _ (wf_h _ (reachable_wf _ R1))) in D.
      vm_compute in D. lia.
  - apply (proj1 (proj2 (C9_cursor_kept fs1 (Rm (Some "kids.jpg")) R1))).
    + exact D1.
    + intros path _. apply files_emptyb_sound. vm_compute. reflexivity.
    + intros path t H. discriminate H.
  - apply (proj2 (proj2 (C9_cursor_kept fs1
                           (Rmdir (Some "../../thecmdchallenge")) R1))
             (Some "../../thecmdchallenge") 1).
    + reflexivity.
    + vm_compute. reflexivity.
    + vm_compute. reflexivity.
    + apply descends_child with (c := 1) (k := "funcode");
        [apply descends_refl|vm_compute; reflexivity].
Defined.

(** C9 (the claim as stated fails).  From the fresh instance,
    [cd("thecmdchallenge/funcode")] and then
    [rmdir("../../thecmdchallenge")] both succeed, and the current
    directory, still the cell of [funcode], can no longer be reached from
    the root. *)
Lemma C9_counterexample :
  let fs1 := (cd new_FileSystem (Some "thecmdchallenge/funcode")).1 in
  let fs2 := (rmdir fs1 (Some "../../thecmdchallenge")).1 in
  (cd new_FileSystem (Some "thecmdchallenge/funcode")).2 = "" /\
  (rmdir fs1 (Some "../../thecmdchallenge")).2 = "" /\
  descends (heap fs1) 1 (currentDir fs1) /\
  ~ descends (heap fs2) (root fs2) (currentDir fs2).
Proof.
  cbv zeta. split; [vm_compute; reflexivity|].
  split; [vm_compute; reflexivity|]. split.
  - apply descends_child with (c := 1) (k := "funcode");
      [apply descends_refl|vm_compute; reflexivity].
  - intros D. apply descends_leaf in D; [|vm_compute; reflexivity].
    vm_compute in D. discriminate D.
Qed.

End FullCursor.

(** ** The complete class: files and their children *)

Section FullFiles.
Import Full.

Lemma files_empty_add_child h p n t c :
  p < length h -> type (deref h p) = directory ->
  files_empty h -> files_empty (add_child h p n t c).
Proof.
  intros Hp Hd HF i Hi Hf. rewrite length_add_child in Hi.
  destruct (Nat.eq_dec i (length h)) as [->|Hne].
  - rewrite deref_add_child_new by assumption. reflexivity.
  - destruct (Nat.eq_dec i p) as [->|Hnp].
    + rewrite deref_add_child_parent in Hf by assumption. simpl in Hf. congruence.
    + rewrite deref_add_child_other in * by lia. apply HF; [lia|assumption].
Qed.

Lemma files_empty_delete_child h p n :
  files_empty h -> files_empty (delete_child h p n).
Proof.
  intros HF i Hi Hf. rewrite length_delete_child in Hi.
  destruct (Nat.eq_dec i p) as [->|Hnp].
  - rewrite deref_delete_child_parent in * by assumption. simpl in *.
    rewrite (HF p Hi Hf). reflexivity.
  - rewrite deref_delete_child_other in * by assumption. apply HF; assumption.
Qed.

Lemma files_empty_new_FileSystem : files_empty (heap new_FileSystem).
Proof. apply files_emptyb_sound. vm_compute. reflexivity. Qed.

(** Every method but mkdirp leaves the files without children. *)
Theorem files_empty_run fs c :
  reachable fs -> files_empty (heap fs) ->
  (forall path, c <> Mkdirp path) ->
  files_empty (heap (run fs c).1).
Proof.
  intros R HF Hc. apply reachable_wf in R. destruct R as [W Hcwd Hd].
  destruct c as [path|n|n|path|path|path]; simpl.
  - exfalso. apply (Hc path). reflexivity.
  - unfold mkdir. destruct (Map_has _ n); simpl; [assumption|].
    apply files_empty_add_child; assumption.
  - unfold touch. destruct (Map_has _ n); simpl; [assumption|].
    apply files_empty_add_child; assumption.
  - unfold cd. destruct (strict_eq path "/"); [assumption|].
    destruct (resolvePath fs path); [|assumption].
    destruct (negb _); assumption.
  - rewrite rm_unfold. destruct (falsy path); [assumption|].
    destruct (parent_of fs _); [|assumption].
    destruct (Map_get _ _); [|assumption].
    destruct (NodeType_eqb _ _); [assumption|]. simpl.
    apply files_empty_delete_child. assumption.
  - rewrite rmdir_unfold. destruct (falsy path); [assumption|].
    destruct (parent_of fs _); [|assumption].
    destruct (Map_get _ _); [|assumption]. simpl.
    apply files_empty_delete_child. assumption.
Qed.

(** C8 (code against the claim).  On the fresh instance no file has
    children; after [mkdirp("thecmdchallenge/the-ultimate-joke.txt/x")]
    the file [the-ultimate-joke.txt] has the new directory [x] in its
    children map, and a path through the file resolves. *)
Theorem C8_mkdirp_under_file :
  let fs' := (mkdirp new_FileSystem "thecmdchallenge/the-ultimate-joke.txt/x").1 in
  files_empty (heap new_FileSystem) /\
  name (deref (heap fs') 2) = "the-ultimate-joke.txt" /\
  type (deref (heap fs') 2) = file /\
  children (deref (heap fs') 2) = [("x", 21)] /\
  type (deref (heap fs') 21) = directory /\
  ~ files_empty (heap fs') /\
  resolvePath fs' (Some "thecmdchallenge/the-ultimate-joke.txt/x") = Some 21.
Proof.
  cbv zeta. split; [apply files_empty_new_FileSystem|].
  repeat (split; [vm_compute; reflexivity|]). split; [|vm_compute; reflexivity].
  intros HF.
  assert (H2 : 2 < length (heap (mkdirp new_FileSystem
                 "thecmdchallenge/the-ultimate-joke.txt/x").1))
    by (apply Nat.ltb_lt; vm_compute; reflexivity).
  specialize (HF 2 H2 ltac:(vm_compute; reflexivity)).
  vm_compute in HF. discriminate HF.
Qed.

End FullFiles.

(** * Further properties of the complete class *)

(** ** Slashes in a path *)

Lemma split_slash_app a b : split (a +:+ "/" +:+ b) = split a ++ split b.
Proof.
  induction a as [|c a IH]; [reflexivity|].
  change (split (String c a +:+ "/" +:+ b))
    with (if Ascii.eqb c "/" then "" :: split (a +:+ "/" +:+ b)
          else match split (a +:+ "/" +:+ b) with
               | [] => [String c ""]
               | w :: ws => String c w :: ws
               end).
  change (split (String c a))
    with (if Ascii.eqb c "/" then "" :: split a
          else match split a with
               | [] => [String c ""]
               | w :: ws => String c w :: ws
               end).
  rewrite IH. pose proof (split_nonempty a) as Hne.
  destruct (Ascii.eqb c "/"); [reflexivity|].
  destruct (split a); [congruence|reflexivity].
Qed.

Lemma filter_Boolean_app l1 l2 :
  filter_Boolean (l1 ++ l2) = filter_Boolean l1 ++ filter_Boolean l2.
Proof.
  induction l1 as [|s l1 IH]; simpl; [reflexivity|].
  destruct (Boolean s); simpl; rewrite IH; reflexivity.
Qed.

Lemma startsWith_slash_app a b :
  startsWith_slash (a +:+ "/" +:+ b) = startsWith_slash (a +:+ "//" +:+ b).
Proof. destruct a; reflexivity. Qed.

Lemma parts_double_slash a b :
  filter_Boolean (split (a +:+ "//" +:+ b)) =
  filter_Boolean (split (a +:+ "/" +:+ b)).
Proof.
  change (a +:+ "//" +:+ b) with (a +:+ "/" +:+ ("" +:+ "/" +:+ b)).
  rewrite !split_slash_app, !filter_Boolean_app. reflexivity.
Qed.

Lemma Boolean_app a b : Boolean (a +:+ "/" +:+ b) = true.
Proof. destruct a; reflexivity. Qed.

Section FullPaths.
Import Full.

(** A doubled slash is read as a single one. *)
Theorem resolvePath_double_slash fs a b :
  resolvePath fs (Some (a +:+ "//" +:+ b)) =
  resolvePath fs (Some (a +:+ "/" +:+ b)).
Proof.
  unfold resolvePath, falsy, show.
  change (a +:+ "//" +:+ b) with (a +:+ "/" +:+ ("/" +:+ b)) at 1.
  rewrite !Boolean_app. cbv beta iota zeta. simpl negb. cbv iota.
  rewrite parts_double_slash, <- startsWith_slash_app. reflexivity.
Qed.

(** A slash at the end of a path that is not empty changes nothing. *)
Theorem resolvePath_trailing_slash fs p :
  Boolean p = true ->
  resolvePath fs (Some (p +:+ "/")) = resolvePath fs (Some p).
Proof.
  intros B. unfold resolvePath, falsy, show.
  change (p +:+ "/") with (p +:+ "/" +:+ "").
  rewrite Boolean_app, B. simpl negb. cbv iota.
  rewrite split_slash_app, filter_Boolean_app. simpl filter_Boolean at 2.
  rewrite app_nil_r.
  replace (startsWith_slash (p +:+ "/" +:+ "")) with (startsWith_slash p)
    by (destruct p; [discriminate B|reflexivity]).
  reflexivity.
Qed.

Lemma resolvePath_trailing_slash_witness :
  resolvePath new_FileSystem (Some "thecmdchallenge/funcode/")
  = resolvePath new_FileSystem (Some "thecmdchallenge/funcode").
Proof.
  apply (resolvePath_trailing_slash new_FileSystem "thecmdchallenge/funcode").
  reflexivity.
Defined.

End FullPaths.

(** ** Creating, listing and removing in the current directory *)

Lemma Map_set_fresh m k v : Map_get m k = None -> Map_set m k v = m ++ [(k, v)].
Proof.
  induction m as [|[k' v'] m IH]; simpl; [reflexivity|].
  destruct (String.eqb k' k); [discriminate|].
  intros H. rewrite (IH H). reflexivity.
Qed.

Lemma Map_delete_fresh m k : Map_get m k = None -> Map_delete m k = m.
Proof.
  induction m as [|[k' v'] m IH]; simpl; [reflexivity|].
  destruct (String.eqb k' k); [discriminate|].
  intros H. rewrite (IH H). reflexivity.
Qed.

Lemma Map_delete_set_fresh m k v :
  Map_get m k = None -> Map_delete (Map_set m k v) k = m.
Proof.
  induction m as [|[k' v'] m IH]; simpl.
  - rewrite String.eqb_refl. reflexivity.
  - destruct (String.eqb k' k) eqn:E; [discriminate|].
    intros H. simpl. rewrite E, (IH H). reflexivity.
Qed.

Section FullCompose.
Import Full.

(** What the current directory holds once [n] has been created in it. *)
Lemma created_child fs n t :
  currentDir fs < length (heap fs) ->
  Map_get (children (deref (heap fs) (currentDir fs))) n = None ->
  let h1 := add_child (heap fs) (currentDir fs) n t "" in
  children (deref h1 (currentDir fs)) =
    children (deref (heap fs) (currentDir fs)) ++ [(n, length (heap fs))] /\
  Map_get (children (deref h1 (currentDir fs))) n = Some (length (heap fs)) /\
  deref h1 (length (heap fs)) =
    {| name := n; type := t; content := ""; children := [];
       parent := Some (currentDir fs) |}.
Proof.
  intros Hc Hfresh h1. subst h1.
  rewrite deref_add_child_parent, deref_add_child_new by assumption. simpl.
  split; [apply Map_set_fresh; assumption|].
  split; [apply Map_get_set_eq|reflexivity].
Qed.

Lemma mkdir_existing fs n :
  Map_has (children (deref (heap fs) (currentDir fs))) n = true ->
  mkdir fs n = (fs, "mkdir: " +:+ n +:+ ": Directory already exists").
Proof. intros H. unfold mkdir. rewrite H. reflexivity. Qed.

Lemma touch_existing fs n :
  Map_has (children (deref (heap fs) (currentDir fs))) n = true ->
  touch fs n = (fs, "touch: " +:+ n +:+ ": File already exists").
Proof. intros H. unfold touch. rewrite H. reflexivity. Qed.

(** mkdir and touch refuse a name that one of them has just been given,
    whatever the first call answered, and change nothing. *)
Theorem create_again fs n :
  reachable fs ->
  mkdir (mkdir fs n).1 n
    = ((mkdir fs n).1, "mkdir: " +:+ n +:+ ": Directory already exists") /\
  touch (mkdir fs n).1 n
    = ((mkdir fs n).1, "touch: " +:+ n +:+ ": File already exists") /\
  mkdir (touch fs n).1 n
    = ((touch fs n).1, "mkdir: " +:+ n +:+ ": Directory already exists") /\
  touch (touch fs n).1 n
    = ((touch fs n).1, "touch: " +:+ n +:+ ": File already exists").
Proof.
  intros R. apply reachable_wf in R. destruct R as [_ Hc _].
  assert (Hm : Map_has (children (deref (heap (mkdir fs n).1)
                                    (currentDir (mkdir fs n).1))) n = true).
  { unfold mkdir. destruct (Map_has (children (deref (heap fs) (currentDir fs))) n) eqn:E;
      simpl; [assumption|].
    apply Map_has_false in E. unfold Map_has.
    destruct (created_child fs n directory Hc E) as (_ & -> & _). reflexivity. }
  assert (Ht : Map_has (children (deref (heap (touch fs n).1)
                                    (currentDir (touch fs n).1))) n = true).
  { unfold touch. destruct (Map_has (children (deref (heap fs) (currentDir fs))) n) eqn:E;
      simpl; [assumption|].
    apply Map_has_false in E. unfold Map_has.
    destruct (created_child fs n file Hc E) as (_ & -> & _). reflexivity. }
  repeat split;
    first [apply mkdir_existing; assumption|apply touch_existing; assumption].
Qed.

Lemma create_again_witness :
  mkdir (mkdir new_FileSystem "x").1 "x"
  = ((mkdir new_FileSystem "x").1, "mkdir: x: Directory already exists").
Proof.
  apply (create_again new_FileSystem "x"). apply reachable_new.
Defined.

(** ls after mkdir of a new name: the old names in their order, then
    the new one. *)
Theorem ls_after_mkdir fs n :
  reachable fs ->
  Map_has (children (deref (heap fs) (currentDir fs))) n = false ->
  ls (mkdir fs n).1 None =
  join newline (Map_keys (children (deref (heap fs) (currentDir fs))) ++ [n]).
Proof.
  intros R Hn. apply reachable_wf in R. destruct R as [_ Hc Hd].
  unfold mkdir. rewrite Hn. apply Map_has_false in Hn.
  destruct (created_child fs n directory Hc Hn) as (Hch & _ & _).
  unfold ls. simpl. unfold Map_keys. rewrite Hch, map_app.
  rewrite deref_add_child_parent by assumption. simpl. rewrite Hd. reflexivity.
Qed.

Lemma ls_after_mkdir_witness :
  ls (mkdir new_FileSystem "x").1 None =
  join newline
    (Map_keys (children (deref (heap new_FileSystem) (currentDir new_FileSystem)))
     ++ ["x"]).
Proof.
  apply (ls_after_mkdir new_FileSystem "x").
  - apply reachable_new.
  - vm_compute; reflexivity.
Defined.

End FullCompose.

Section FullCompose2.
Import Full.

Lemma no_slash_not_slash x : no_slash x = true -> String.eqb x "/" = false.
Proof.
  destruct x as [|c x]; [reflexivity|]. simpl. intros H.
  apply andb_prop in H as [H _]. apply negb_true_iff in H. rewrite H. reflexivity.
Qed.

(** A single plain name resolves to the child of that name in the
    current directory. *)
Lemma resolvePath_plain fs x :
  plain_segment x = true ->
  resolvePath fs (Some x) =
  Map_get (children (deref (heap fs) (currentDir fs))) x.
Proof.
  intros Hx. pose proof (plain_segment_spec x Hx) as (B & Hs & _ & _).
  unfold resolvePath, falsy, show. rewrite B. simpl negb. cbv iota.
  rewrite (split_no_slash x Hs). simpl filter_Boolean. rewrite B.
  replace (startsWith_slash x) with false.
  - simpl walk. rewrite (step_plain _ _ _ Hx).
    destruct (Map_get _ x); reflexivity.
  - destruct x as [|c x]; [reflexivity|]. simpl in *.
    apply andb_prop in Hs as [Hs _]. apply negb_true_iff in Hs. congruence.
Qed.

Lemma resolvePath_dotdot fs :
  resolvePath fs (Some "..") =
  Some (match parent (deref (heap fs) (currentDir fs)) with
        | Some p => p
        | None => currentDir fs
        end).
Proof. reflexivity. Qed.

(** mkdir of a new plain name, cd into it, cd [..]: both moves succeed
    and the instance is back in the state mkdir left, in the directory
    it started from. *)
Theorem mkdir_cd_back fs x :
  reachable fs ->
  plain_segment x = true ->
  Map_has (children (deref (heap fs) (currentDir fs))) x = false ->
  (mkdir fs x).2 = "" /\
  (cd (mkdir fs x).1 (Some x)).2 = "" /\
  currentDir (cd (mkdir fs x).1 (Some x)).1 = length (heap fs) /\
  cd (cd (mkdir fs x).1 (Some x)).1 (Some "..") = ((mkdir fs x).1, "") /\
  currentDir (mkdir fs x).1 = currentDir fs.
Proof.
  intros R Hx Hn. apply reachable_wf in R. destruct R as [_ Hc Hd].
  pose proof (plain_segment_spec x Hx) as (_ & Hs & _ & _).
  unfold mkdir. rewrite Hn. apply Map_has_false in Hn.
  destruct (created_child fs x directory Hc Hn) as (_ & Hget & Hnew).
  simpl fst. simpl snd.
  assert (Hcd : cd (set_heap fs (add_child (heap fs) (currentDir fs) x directory ""))
                  (Some x)
                = (set_currentDir
                     (set_heap fs (add_child (heap fs) (currentDir fs) x directory ""))
                     (length (heap fs)), "")).
  { unfold cd. simpl strict_eq. rewrite (no_slash_not_slash x Hs).
    rewrite resolvePath_plain by assumption. simpl heap. simpl currentDir.
    rewrite Hget, Hnew. reflexivity. }
  rewrite Hcd. simpl fst. simpl snd.
  repeat split.
  unfold cd. simpl strict_eq. cbv iota. rewrite resolvePath_dotdot.
  simpl heap. simpl currentDir. rewrite Hnew. simpl parent.
  rewrite deref_add_child_parent by assumption. simpl type. rewrite Hd.
  reflexivity.
Qed.

Lemma mkdir_cd_back_witness :
  cd (cd (mkdir new_FileSystem "x").1 (Some "x")).1 (Some "..")
  = ((mkdir new_FileSystem "x").1, "").
Proof.
  apply (mkdir_cd_back new_FileSystem "x").
  - apply reachable_new.
  - reflexivity.
  - vm_compute; reflexivity.
Defined.

(** touch of a new name, then rm of it: rm succeeds, the current
    directory lists what it listed before, and a second rm finds
    nothing. *)
Theorem touch_rm fs t :
  reachable fs ->
  Boolean t = true -> no_slash t = true ->
  Map_has (children (deref (heap fs) (currentDir fs))) t = false ->
  (touch fs t).2 = "" /\
  (rm (touch fs t).1 (Some t)).2 = "" /\
  children (deref (heap (rm (touch fs t).1 (Some t)).1) (currentDir fs))
    = children (deref (heap fs) (currentDir fs)) /\
  ls (rm (touch fs t).1 (Some t)).1 None = ls fs None /\
  rm (rm (touch fs t).1 (Some t)).1 (Some t)
    = ((rm (touch fs t).1 (Some t)).1,
       "rm: " +:+ t +:+ ": No such file or directory").
Proof.
  intros R B Hs Hn. apply reachable_wf in R. destruct R as [_ Hc Hd].
  unfold touch. rewrite Hn. apply Map_has_false in Hn.
  destruct (created_child fs t file Hc Hn) as (_ & Hget & Hnew).
  simpl fst. simpl snd.
  assert (HL : split_last t = ("", t)).
  { apply split_last_intro. split; [assumption|]. left. auto. }
  set (h1 := add_child (heap fs) (currentDir fs) t file "") in *.
  assert (Hrm : rm (set_heap fs h1) (Some t)
                = (set_heap fs (delete_child h1 (currentDir fs) t), "")).
  { rewrite rm_unfold. unfold falsy, show. rewrite B. simpl negb. cbv iota.
    rewrite HL. simpl fst. simpl snd. unfold parent_of. simpl Boolean. cbv iota.
    simpl heap. simpl currentDir. rewrite Hget, Hnew. reflexivity. }
  rewrite Hrm. simpl fst. simpl snd.
  assert (Hch : children (deref (delete_child h1 (currentDir fs) t) (currentDir fs))
                = children (deref (heap fs) (currentDir fs))).
  { rewrite deref_delete_child_parent
      by (subst h1; rewrite length_add_child; lia).
    subst h1. rewrite deref_add_child_parent by assumption. simpl.
    apply Map_delete_set_fresh. assumption. }
  assert (Hty : type (deref (delete_child h1 (currentDir fs) t) (currentDir fs))
                = directory).
  { rewrite deref_delete_child_parent
      by (subst h1; rewrite length_add_child; lia).
    subst h1. rewrite deref_add_child_parent by assumption. simpl. assumption. }
  repeat split.
  - assumption.
  - unfold ls. simpl. rewrite Hch, Hty, Hd. reflexivity.
  - rewrite rm_unfold. unfold falsy, show. rewrite B. simpl negb. cbv iota.
    rewrite HL. simpl fst. simpl snd. unfold parent_of. simpl Boolean. cbv iota.
    simpl heap. simpl currentDir. rewrite Hch, Hn. reflexivity.
Qed.

Lemma touch_rm_witness :
  ls (rm (touch new_FileSystem "t").1 (Some "t")).1 None = ls new_FileSystem None.
Proof.
  apply (touch_rm new_FileSystem "t").
  - apply reachable_new.
  - reflexivity.
  - reflexivity.
  - vm_compute; reflexivity.
Defined.

(** A slash in front of a bare name does not send a removal to the
    root: the prefix before the last slash is empty, so the name is
    looked up in the current directory, and the tree ends up as after
    the removal of the bare name. *)
Theorem removal_leading_slash fs n :
  Boolean n = true -> no_slash n = true ->
  (rm fs (Some ("/" +:+ n))).1 = (rm fs (Some n)).1 /\
  (rmdir fs (Some ("/" +:+ n))).1 = (rmdir fs (Some n)).1 /\
  ((rm fs (Some ("/" +:+ n))).2 = "" <-> (rm fs (Some n)).2 = "") /\
  ((rmdir fs (Some ("/" +:+ n))).2 = "" <-> (rmdir fs (Some n)).2 = "").
Proof.
  intros B Hs.
  assert (H1 : split_last n = ("", n)).
  { apply split_last_intro. split; [assumption|]. left. auto. }
  assert (H2 : split_last ("/" +:+ n) = ("", n)).
  { apply split_last_intro. split; [assumption|]. right. reflexivity. }
  rewrite !rm_unfold, !rmdir_unfold. unfold falsy, show.
  rewrite B. change (Boolean ("/" +:+ n)) with true. simpl negb. cbv iota.
  rewrite H1, H2. simpl fst. simpl snd.
  change (parent_of fs "") with (Some (currentDir fs)). cbv iota.
  destruct (Map_get (children (deref (heap fs) (currentDir fs))) n) as [t|];
    [destruct (NodeType_eqb (type (deref (heap fs) t)) directory)|];
    simpl; repeat split; intros; try reflexivity;
    match goal with H : _ = "" |- _ => discriminate H end.
Qed.

Lemma removal_leading_slash_witness :
  (rm (cd new_FileSystem (Some "thecmdchallenge")).1
      (Some ("/" +:+ "the-ultimate-joke.txt"))).1
  = (rm (cd new_FileSystem (Some "thecmdchallenge")).1
      (Some "the-ultimate-joke.txt")).1.
Proof.
  exact (proj1 (removal_leading_slash
                  (cd new_FileSystem (Some "thecmdchallenge")).1
                  "the-ultimate-joke.txt" eq_refl eq_refl)).
Defined.

End FullCompose2.

(** ** mkdirp *)

Section FullMkdirp.
Import Full.

(** mkdirp only adds names that are not there: every edge stays. *)
Lemma edge_mkdirp_loop rt parts : forall h cur c k d,
  wf_heap h rt -> cur < length h ->
  Map_get (children (deref h c)) k = Some d ->
  Map_get (children (deref (mkdirp_loop h cur parts) c)) k = Some d.
Proof.
  induction parts as [|part rest IH]; simpl; intros h cur c k d W Hc G;
    [assumption|].
  set (h1 := if negb (Map_has (children (deref h cur)) part)
             then add_child h cur part directory "" else h).
  assert (H1 : wf_heap h1 rt /\
               Map_get (children (deref h1 c)) k = Some d).
  { subst h1. destruct (Map_has _ part) eqn:E; simpl; [auto|].
    apply Map_has_false in E. split.
    - apply wf_heap_add_child; assumption.
    - apply edge_add_child; assumption. }
  destruct H1 as (W1 & G1).
  destruct (Map_get (children (deref h1 cur)) part) as [next|] eqn:Gn;
    [|assumption].
  apply IH; [assumption| |assumption].
  apply (edge_child _ _ _ _ _ W1 Gn).
Qed.

(** The first turn of the loop: afterwards the segment names a child. *)
Lemma mkdirp_first_turn h rt cur part :
  wf_heap h rt -> cur < length h ->
  let h1 := if negb (Map_has (children (deref h cur)) part)
            then add_child h cur part directory "" else h in
  wf_heap h1 rt /\
  exists next, Map_get (children (deref h1 cur)) part = Some next /\
               next < length h1.
Proof.
  intros W Hc h1.
  assert (W1 : wf_heap h1 rt).
  { subst h1. destruct (negb _); [apply wf_heap_add_child|]; assumption. }
  split; [assumption|].
  assert (G : exists next, Map_get (children (deref h1 cur)) part = Some next).
  { subst h1. destruct (Map_has _ part) eqn:E; simpl.
    - apply Map_has_get. assumption.
    - rewrite deref_add_child_parent by assumption. simpl.
      rewrite Map_get_set_eq. eauto. }
  destruct G as [next G]. exists next. split; [assumption|].
  apply (edge_child _ _ _ _ _ W1 G).
Qed.

Lemma mkdirp_loop_again rt parts : forall h cur,
  wf_heap h rt -> cur < length h ->
  mkdirp_loop (mkdirp_loop h cur parts) cur parts = mkdirp_loop h cur parts.
Proof.
  induction parts as [|part rest IH]; intros h cur W Hc; [reflexivity|].
  destruct (mkdirp_first_turn h rt cur part W Hc) as (W1 & next & G & Hn).
  simpl mkdirp_loop at 2 3.
  set (h1 := if negb (Map_has (children (deref h cur)) part)
             then add_child h cur part directory "" else h) in *.
  rewrite G.
  pose proof (edge_mkdirp_loop rt rest h1 next cur part next W1 Hn G) as G2.
  simpl mkdirp_loop. unfold Map_has. rewrite G2. simpl negb. cbv iota.
  rewrite G2. apply IH; assumption.
Qed.

(** mkdirp a second time with the same path creates nothing. *)
Theorem mkdirp_again fs path :
  reachable fs ->
  mkdirp (mkdirp fs path).1 path = ((mkdirp fs path).1, "").
Proof.
  intros R. apply reachable_wf in R. destruct R as [W Hc _].
  unfold mkdirp. simpl.
  rewrite (mkdirp_loop_again (root fs)) by assumption. reflexivity.
Qed.

Lemma mkdirp_again_witness :
  mkdirp (mkdirp new_FileSystem "a/b").1 "a/b"
  = ((mkdirp new_FileSystem "a/b").1, "").
Proof. apply (mkdirp_again new_FileSystem "a/b"). apply reachable_new. Defined.

Lemma walk_mkdirp_loop rt parts : forall h cur,
  wf_heap h rt -> cur < length h ->
  Forall (fun s => plain_segment s = true) parts ->
  exists n, walk (mkdirp_loop h cur parts) cur parts = Some n.
Proof.
  induction parts as [|part rest IH]; intros h cur W Hc HF; [simpl; eauto|].
  inversion HF as [|? ? Hp HF']; subst.
  destruct (mkdirp_first_turn h rt cur part W Hc) as (W1 & next & G & Hn).
  simpl mkdirp_loop.
  set (h1 := if negb (Map_has (children (deref h cur)) part)
             then add_child h cur part directory "" else h) in *.
  rewrite G.
  pose proof (edge_mkdirp_loop rt rest h1 next cur part next W1 Hn G) as G2.
  simpl walk. rewrite (step_plain _ _ _ Hp), G2.
  apply IH; assumption.
Qed.

(** After mkdirp of a relative path without [.] and [..] segments the
    path resolves. *)
Theorem mkdirp_resolves fs path :
  reachable fs ->
  Boolean path = true -> startsWith_slash path = false ->
  Forall (fun s => plain_segment s = true) (filter_Boolean (split path)) ->
  (mkdirp fs path).2 = "" /\
  exists n, resolvePath (mkdirp fs path).1 (Some path) = Some n.
Proof.
  intros R B Hs HF. apply reachable_wf in R. destruct R as [W Hc _].
  split; [reflexivity|].
  unfold resolvePath, falsy, show. rewrite B, Hs. simpl negb. cbv iota.
  unfold mkdirp. simpl fst. simpl heap. simpl currentDir.
  apply walk_mkdirp_loop with (rt := root fs); assumption.
Qed.

Lemma mkdirp_resolves_witness :
  exists n, resolvePath (mkdirp new_FileSystem "a/b").1 (Some "a/b") = Some n.
Proof.
  apply (mkdirp_resolves new_FileSystem "a/b").
  - apply reachable_new.
  - reflexivity.
  - reflexivity.
  - repeat constructor.
Defined.

End FullMkdirp.

(** ** tree *)

Section FullTree.
Import Full.

Lemma forEach_tree_total rec total cs : forall index result,
  (forall c b, In c cs -> exists t, rec c b = Some t) ->
  exists rest, forEach_tree rec total cs index result = Some (result +:+ rest).
Proof.
  induction cs as [|c cs IH]; intros index result Hrec; simpl.
  - exists "". f_equal. induction result as [|x r IHr]; [reflexivity|].
    change (String x r = String x (r +:+ "")). rewrite <- IHr. reflexivity.
  - destruct (Hrec c (Nat.eqb index (total - 1)) (or_introl eq_refl)) as [t ->].
    destruct (IH (S index) (result +:+ t)) as [rest ->].
    + intros c' b Hin. apply Hrec. right. assumption.
    + exists (t +:+ rest). rewrite append_assoc. reflexivity.
Qed.

Lemma tree_fuel_total h rt : wf_heap h rt ->
  forall fuel node prefix isLast,
    node < length h -> length h - node <= fuel ->
    exists s, tree_fuel fuel h rt node prefix isLast = Some s.
Proof.
  intros W fuel. induction fuel as [|fuel IH]; intros node prefix isLast Hn Hf;
    [lia|].
  simpl. destruct (NodeType_eqb (type (deref h node)) directory); [|eauto].
  match goal with
  | |- exists s, forEach_tree ?rec ?total ?cs ?i ?r = Some s =>
      destruct (forEach_tree_total rec total cs i r) as [rest ->]; [|eauto]
  end.
  intros c b Hin. unfold Map_values in Hin. apply in_map_iff in Hin.
  destruct Hin as ([k c'] & <- & Hin). simpl.
  destruct (wf_children _ _ W node k c' Hn Hin) as (Hc & _ & Hp).
  pose proof (wf_parent_lt _ _ W c' node Hc Hp).
  apply IH; lia.
Qed.

(** tree with its default arguments always answers on a state of the
    class, and its first line is the current directory's: the last-child
    connector, the folder icon, and the name (the slash for the root). *)
Theorem tree_total fs :
  reachable fs ->
  exists rest,
    tree fs = Some ("└── " +:+ folder_icon +:+ " " +:+
                    (if Nat.eqb (currentDir fs) (root fs) then "/"
                     else name (deref (heap fs) (currentDir fs)))
                    +:+ newline +:+ rest).
Proof.
  intros R. apply reachable_wf in R. destruct R as [W Hc Hd].
  unfold tree. destruct (length (heap fs)) as [|fuel] eqn:L; [lia|].
  simpl tree_fuel. rewrite Hd. simpl NodeType_eqb. cbv iota.
  match goal with
  | |- exists rest, forEach_tree ?rec ?total ?cs ?i ?r = Some _ =>
      destruct (forEach_tree_total rec total cs i r) as [rest ->]
  end.
  - intros c b Hin. unfold Map_values in Hin. apply in_map_iff in Hin.
    destruct Hin as ([k c'] & <- & Hin). simpl.
    assert (Hc0 : currentDir fs < length (heap fs)) by lia.
    destruct (wf_children _ _ W (currentDir fs) k c' Hc0 Hin) as (Hc' & _ & Hp).
    pose proof (wf_parent_lt _ _ W c' (currentDir fs) Hc' Hp).
    apply (tree_fuel_total _ _ W); lia.
  - exists rest. rewrite !append_assoc. reflexivity.
Qed.

End FullTree.

(** * Further properties of the reduced class *)

Section LibSeed.
Import Lib.

Lemma buildStructure_nil h p : buildStructure (Obj []) h p = h.
Proof. reflexivity. Qed.

Lemma buildStructure_cons n v es h p :
  buildStructure (Obj ((n, v) :: es)) h p =
  buildStructure (Obj es) (build_entry h p n v) p.
Proof. reflexivity. Qed.

Lemma Lib_edge_in_range h c k d :
  In (k, d) (children (deref h c)) -> c < length h.
Proof.
  intros H. destruct (Nat.lt_ge_cases c (length h)) as [|Hge]; [assumption|].
  unfold deref in H. rewrite list_lookup_total_alt in H.
  rewrite (proj2 (lookup_ge_None h c)) in H by lia. destruct H.
Qed.

Lemma keeps_refl h p : keeps h h p.
Proof. repeat split; auto. Qed.

Lemma keeps_trans h1 h2 h3 p :
  keeps h1 h2 p -> keeps h2 h3 p -> keeps h1 h3 p.
Proof.
  intros (L1 & N1 & C1) (L2 & N2 & C2). split; [lia|]. split.
  - intros i Hi. destruct (N1 i Hi) as [E1 E2].
    destruct (N2 i ltac:(lia)) as [E3 E4]. split; congruence.
  - intros i Hi Hne. rewrite <- (C1 i Hi Hne). apply C2; [lia|assumption].
Qed.

(** A cell appended to the heap. *)
Lemma forward_snoc h cell :
  children cell = [] -> forward h -> forward (h ++ [cell]).
Proof.
  intros Hcell F i k c Hin.
  destruct (Nat.lt_ge_cases i (length h)) as [Hi|Hi].
  - unfold deref in Hin. rewrite lookup_total_app_l in Hin by assumption.
    destruct (F i k c Hin) as (H1 & H2 & H3). rewrite length_app. simpl.
    split; [assumption|]. split; [lia|].
    unfold deref. rewrite lookup_total_app_l by assumption. assumption.
  - pose proof (Lib_edge_in_range _ _ _ _ Hin) as Hr.
    rewrite length_app in Hr. simpl in Hr. assert (i = length h) by lia. subst i.
    unfold deref in Hin. rewrite lookup_total_app_r in Hin by lia.
    replace (length h - length h) with 0 in Hin by lia. simpl in Hin.
    rewrite Hcell in Hin. destruct Hin.
Qed.

Lemma deref_snoc_old h cell i :
  i < length h -> deref (h ++ [cell]) i = deref h i.
Proof. intros Hi. unfold deref. apply lookup_total_app_l. assumption. Qed.

Lemma deref_snoc_new h cell : deref (h ++ [cell]) (length h) = cell.
Proof.
  unfold deref. rewrite lookup_total_app_r by lia.
  replace (length h - length h) with 0 by lia. reflexivity.
Qed.

(** What one turn of the loop does, given what the nested call does. *)
Lemma build_entry_spec h p n v :
  p < length h -> forward h ->
  (forall h0 q, q < length h0 -> forward h0 ->
     forward (buildStructure v h0 q) /\ keeps h0 (buildStructure v h0 q) q) ->
  forward (build_entry h p n v) /\
  keeps h (build_entry h p n v) p /\
  children (deref (build_entry h p n v) p) =
    Map_set (children (deref h p)) n (length h).
Proof.
  intros Hp F IHv. unfold build_entry. cbv zeta.
  set (h1 := match v with
             | Str s => h ++ [set_content (new_FileSystemNode n file) s]
             | Obj _ => buildStructure v (h ++ [new_FileSystemNode n directory])
                          (length h)
             end).
  assert (H1 : forward h1 /\ length h < length h1 /\
               (forall i, i < length h -> deref h1 i = deref h i \/
                  (name (deref h1 i) = name (deref h i) /\
                   type (deref h1 i) = type (deref h i) /\
                   children (deref h1 i) = children (deref h i))) /\
               name (deref h1 (length h)) = n).
  { subst h1. destruct v as [s|es].
    - split; [apply forward_snoc; [reflexivity|assumption]|].
      split; [rewrite length_app; simpl; lia|]. split.
      + intros i Hi. left. apply deref_snoc_old. assumption.
      + rewrite deref_snoc_new. reflexivity.
    - assert (Hlen : length (h ++ [new_FileSystemNode n directory])
                     = S (length h)) by (rewrite length_app; simpl; lia).
      destruct (IHv (h ++ [new_FileSystemNode n directory]) (length h))
        as (F1 & L1 & N1 & C1).
      + rewrite Hlen. lia.
      + apply forward_snoc; [reflexivity|assumption].
      + rewrite Hlen in L1, N1, C1.
        split; [assumption|]. split; [lia|]. split.
        * intros i Hi. right.
          destruct (N1 i ltac:(lia)) as [-> ->].
          rewrite (C1 i) by lia. rewrite deref_snoc_old by assumption. auto.
        * destruct (N1 (length h) ltac:(lia)) as [-> _].
          rewrite deref_snoc_new. reflexivity. }
  destruct H1 as (F1 & L1 & Old & Hname).
  assert (Oldn : forall i, i < length h ->
            name (deref h1 i) = name (deref h i) /\
            type (deref h1 i) = type (deref h i) /\
            children (deref h1 i) = children (deref h i)).
  { intros i Hi. destruct (Old i Hi) as [->|H]; auto. }
  clear Old.
  assert (Hp1 : p < length h1) by lia.
  assert (Dp : forall i, i <> p ->
            deref (<[p := set_children (deref h1 p)
                            (Map_set (children (deref h1 p)) n (length h))]> h1) i
            = deref h1 i).
  { intros i Hi. unfold deref. rewrite list_lookup_total_insert_ne by lia.
    reflexivity. }
  assert (Dpp : deref (<[p := set_children (deref h1 p)
                            (Map_set (children (deref h1 p)) n (length h))]> h1) p
                = set_children (deref h1 p)
                    (Map_set (children (deref h1 p)) n (length h))).
  { unfold deref. rewrite list_lookup_total_insert_eq by assumption. reflexivity. }
  assert (Nm : forall i, name (deref (<[p := set_children (deref h1 p)
                            (Map_set (children (deref h1 p)) n (length h))]> h1) i)
                         = name (deref h1 i) /\
                         type (deref (<[p := set_children (deref h1 p)
                            (Map_set (children (deref h1 p)) n (length h))]> h1) i)
                         = type (deref h1 i)).
  { intros i. destruct (Nat.eq_dec i p) as [->|Hne].
    - rewrite Dpp. auto.
    - rewrite Dp by assumption. auto. }
  split; [|split].
  - intros i k c Hin. rewrite length_insert.
    destruct (Nat.eq_dec i p) as [->|Hne].
    + rewrite Dpp in Hin. simpl in Hin.
      apply Map_In_set in Hin as [Hin|[-> ->]].
      * destruct (F1 p k c Hin) as (H1 & H2 & H3).
        destruct (Nm c) as [-> _]. auto.
      * destruct (Nm (length h)) as [-> _]. auto.
    + rewrite Dp in Hin by assumption.
      destruct (F1 i k c Hin) as (H1 & H2 & H3).
      destruct (Nm c) as [-> _]. auto.
  - split; [rewrite length_insert; lia|]. split.
    + intros i Hi. destruct (Nm i) as [-> ->].
      destruct (Oldn i Hi) as (-> & -> & _). auto.
    + intros i Hi Hne. rewrite Dp by assumption.
      destruct (Oldn i Hi) as (_ & _ & ->). reflexivity.
  - rewrite Dpp. simpl. destruct (Oldn p Hp) as (_ & _ & ->). reflexivity.
Qed.

(** Seeding keeps the shape of the heap, and touches the children of the
    seeded directory only. *)
Lemma buildStructure_spec v : forall h p,
  p < length h -> forward h ->
  forward (buildStructure v h p) /\ keeps h (buildStructure v h p) p.
Proof.
  induction v as [s|es IH] using structure_nested_ind; intros h p Hp F.
  - split; [assumption|apply keeps_refl].
  - revert h Hp F. induction IH as [|[n v] es IHv _ IHes]; intros h Hp F.
    + rewrite buildStructure_nil. split; [assumption|apply keeps_refl].
    + rewrite buildStructure_cons.
      destruct (build_entry_spec h p n v Hp F IHv) as (F1 & K1 & _).
      destruct (IHes (build_entry h p n v)) as (F2 & K2).
      * destruct K1. lia.
      * assumption.
      * split; [assumption|]. eapply keeps_trans; eassumption.
Qed.

End LibSeed.

Section LibStates.
Import Lib.

Lemma Lib_walk_app h parts1 : forall cur parts2,
  walk h cur (parts1 ++ parts2) =
  match walk h cur parts1 with
  | None => None
  | Some m => walk h m parts2
  end.
Proof.
  induction parts1 as [|p parts1 IH]; simpl; intros cur parts2; [reflexivity|].
  destruct (isDirectory (deref h cur)); [|apply IH].
  destruct (Map_get (children (deref h cur)) p); [apply IH|reflexivity].
Qed.

(** The walk never goes to an earlier cell, and stays inside the heap. *)
Lemma Lib_walk_forward h parts : forall cur r,
  forward h -> cur < length h -> walk h cur parts = Some r ->
  cur <= r /\ r < length h.
Proof.
  induction parts as [|p parts IH]; simpl; intros cur r F Hc.
  - intros [= <-]. lia.
  - destruct (isDirectory (deref h cur)); [|apply IH; assumption].
    destruct (Map_get (children (deref h cur)) p) as [next|] eqn:G;
      [|discriminate].
    apply Map_get_In in G. destruct (F cur p next G) as (H1 & H2 & _).
    intros Hw. destruct (IH next r F H2 Hw). lia.
Qed.

(** Every state of the reduced class has the shape [wf], and its root is
    the first cell. *)
Theorem Lib_reachable_wf fs : reachable fs -> wf fs /\ root fs = 0.
Proof.
  induction 1 as [|fs es _ [IH R0]|fs path fs' b _ [IH R0] Hcd].
  - split; [|reflexivity]. split; simpl; try lia; try reflexivity.
    intros i k c Hin. destruct i as [|[|i]]; destruct Hin.
  - destruct IH as [F Hr Hc Hd].
    destruct (buildStructure_spec (Obj es) (heap fs) (root fs) Hr F)
      as (F' & L & N & _).
    split; [|assumption]. split.
    + exact F'.
    + change (root fs < length (buildStructure (Obj es) (heap fs) (root fs))).
      lia.
    + change (currentDir fs
              < length (buildStructure (Obj es) (heap fs) (root fs))).
      lia.
    + change (isDirectory (deref (buildStructure (Obj es) (heap fs) (root fs))
                             (currentDir fs)) = true).
      unfold isDirectory in *. destruct (N _ Hc) as [_ ->]. assumption.
  - unfold cd in Hcd. destruct (resolvePath fs path) as [[t|]|] eqn:Rp;
      try discriminate.
    + destruct (isDirectory (deref (heap fs) t)) eqn:Ht;
        injection Hcd as <- <-; [|auto].
      destruct IH as [F Hr Hc Hd]. split; [|assumption].
      split; simpl; try assumption.
      unfold resolvePath in Rp. destruct path as [p|]; [|discriminate].
      injection Rp as Rp. apply (Lib_walk_forward _ _ _ _ F Hc Rp).
    + injection Hcd as <- <-. auto.
Qed.

(** No cd leads back: the current directory never moves to a cell above
    it, so once it has left the root it stays away from it. *)
Theorem Lib_cd_never_up fs path fs' b :
  reachable fs -> cd fs path = Return (fs', b) ->
  currentDir fs <= currentDir fs' /\
  (currentDir fs <> root fs -> currentDir fs' <> root fs').
Proof.
  intros R Hcd. destruct (Lib_reachable_wf fs R) as [[F Hr Hc Hd] R0].
  assert (Hle : currentDir fs <= currentDir fs' /\ root fs' = root fs).
  { unfold cd in Hcd. destruct (resolvePath fs path) as [[t|]|] eqn:Rp;
      try discriminate.
    - destruct (isDirectory (deref (heap fs) t)); injection Hcd as <- <-;
        [|auto]. simpl. split; [|reflexivity].
      unfold resolvePath in Rp. destruct path as [p|]; [|discriminate].
      injection Rp as Rp. apply (Lib_walk_forward _ _ _ _ F Hc Rp).
    - injection Hcd as <- <-. auto. }
  destruct Hle as [Hle ->]. split; [assumption|]. rewrite R0. lia.
Qed.

Lemma Lib_cd_never_up_witness :
  currentDir Lib.fs <= currentDir (set_currentDir Lib.fs 1).
Proof.
  apply (Lib_cd_never_up Lib.fs (Some "thecmdchallenge")
           (set_currentDir Lib.fs 1) true).
  - apply (reachable_seed new_FileSystem). apply reachable_new.
  - vm_compute; reflexivity.
Defined.

(** After a cd that succeeds on a path with at least one segment, pwd
    prints the last segment of the path, and nothing of what leads to
    it. *)
Theorem Lib_cd_pwd_last_segment fs p init x fs' :
  reachable fs ->
  filter_Boolean (split p) = init ++ [x] ->
  cd fs (Some p) = Return (fs', true) ->
  pwd fs' = x.
Proof.
  intros R Hparts Hcd. destruct (Lib_reachable_wf fs R) as [[F Hr Hc Hd] _].
  unfold cd, resolvePath in Hcd. rewrite Hparts, Lib_walk_app in Hcd.
  destruct (walk (heap fs) (currentDir fs) init) as [m|]; [|discriminate].
  simpl in Hcd.
  destruct (isDirectory (deref (heap fs) m)) eqn:Hm.
  - destruct (Map_get (children (deref (heap fs) m)) x) as [t|] eqn:G;
      [|discriminate].
    destruct (isDirectory (deref (heap fs) t)); [|discriminate].
    injection Hcd as <-. unfold pwd. simpl.
    apply Map_get_In in G. apply (F m x t G).
  - rewrite Hm in Hcd. discriminate.
Qed.

Lemma Lib_cd_pwd_last_segment_witness :
  pwd (set_currentDir Lib.fs 3) = "user".
Proof.
  apply (Lib_cd_pwd_last_segment Lib.fs "thecmdchallenge/home/user"
           ["thecmdchallenge"; "home"] "user" (set_currentDir Lib.fs 3)).
  - apply (reachable_seed new_FileSystem). apply reachable_new.
  - vm_compute; reflexivity.
  - vm_compute; reflexivity.
Defined.

(** Whatever is appended, after a slash, to a path that resolves to a
    file is ignored: the longer path resolves to the same file. *)
Theorem Lib_resolvePath_past_file fs p q f :
  resolvePath fs (Some p) = Return (Some f) ->
  isDirectory (deref (heap fs) f) = false ->
  resolvePath fs (Some (p +:+ "/" +:+ q)) = Return (Some f).
Proof.
  unfold resolvePath. intros [= Hw] Hf.
  rewrite split_slash_app, filter_Boolean_app, Lib_walk_app, Hw.
  rewrite Lib_walk_file by assumption. reflexivity.
Qed.

Lemma Lib_resolvePath_past_file_witness :
  resolvePath Lib.fs
    (Some ("thecmdchallenge/home/user/documents/file1.txt" +:+ "/" +:+ "a/b"))
  = Return (Some 5).
Proof.
  apply (Lib_resolvePath_past_file Lib.fs
           "thecmdchallenge/home/user/documents/file1.txt" "a/b" 5);
    vm_compute; reflexivity.
Defined.

Lemma Map_keys_set m k v : Map_keys (Map_set m k v) = set_key (Map_keys m) k.
Proof.
  unfold set_key, Map_keys. induction m as [|[k' v'] m IH]; simpl; [reflexivity|].
  rewrite (String.eqb_sym k k'). destruct (String.eqb k' k); simpl;
    [reflexivity|].
  rewrite IH. destruct (existsb (String.eqb k) (map fst m)); reflexivity.
Qed.

Lemma set_key_fresh shown k : ~ In k shown -> set_key shown k = shown ++ [k].
Proof.
  intros Hn. unfold set_key.
  destruct (existsb (String.eqb k) shown) eqn:E; [|reflexivity].
  apply existsb_exists in E as (y & Hy & Hk). apply String.eqb_eq in Hk.
  subst y. contradiction.
Qed.

Lemma fold_set_key_fresh ks : forall shown,
  NoDup ks -> (forall k, In k ks -> ~ In k shown) ->
  fold_left set_key ks shown = shown ++ ks.
Proof.
  induction ks as [|k ks IH]; intros shown ND Hfresh; simpl.
  - rewrite app_nil_r. reflexivity.
  - apply NoDup_cons in ND as [Hk ND].
    rewrite set_key_fresh by (apply Hfresh; left; reflexivity).
    rewrite IH; [rewrite <- app_assoc; reflexivity|assumption|].
    intros k' Hin Hin'. apply in_app_or in Hin' as [Hin'|[<-|[]]].
    + apply (Hfresh k'); [right|]; assumption.
    + apply Hk. apply list_elem_of_In. assumption.
Qed.

Lemma buildStructure_keys es : forall h p,
  p < length h -> forward h ->
  Map_keys (children (deref (buildStructure (Obj es) h p) p)) =
  fold_left set_key (map fst es) (Map_keys (children (deref h p))).
Proof.
  induction es as [|[n v] es IH]; intros h p Hp F; [reflexivity|].
  rewrite buildStructure_cons.
  destruct (build_entry_spec h p n v Hp F
              (fun h0 q => buildStructure_spec v h0 q)) as (F1 & K1 & C1).
  rewrite IH; [|destruct K1; lia|assumption].
  simpl. rewrite C1, Map_keys_set. reflexivity.
Qed.

(** ls on a fresh instance seeded with an object lists the keys of the
    object in the order in which [Object.entries] enumerates them (the
    order of the entries of [Obj]). *)
Theorem Lib_ls_after_seed es :
  NoDup (map fst es) ->
  ls (initializeDefaultStructure new_FileSystem (Obj es)) = map fst es.
Proof.
  intros ND.
  change (ls (initializeDefaultStructure new_FileSystem (Obj es)))
    with (Map_keys (children (deref
            (buildStructure (Obj es) [new_FileSystemNode "/" directory] 0) 0))).
  rewrite buildStructure_keys.
  - apply (fold_set_key_fresh (map fst es) [] ND). intros k _ [].
  - simpl. lia.
  - intros i k c Hin. destruct i as [|[|i]]; destruct Hin.
Qed.

Lemma Lib_ls_after_seed_witness :
  ls (initializeDefaultStructure new_FileSystem
        (Obj [("a", Obj [("f.txt", Str "hi"); ("b", Obj [])])])) = ["a"].
Proof.
  apply (Lib_ls_after_seed [("a", Obj [("f.txt", Str "hi"); ("b", Obj [])])]).
  repeat constructor. intros H. inversion H.
Defined.

End LibStates.

(** * The invariants at work on the built instances *)

Section FullWitnesses.
Import Full.

(** What resolves from a current directory below the root lies below
    the root. *)
Theorem resolvePath_descends fs path r :
  reachable fs ->
  descends (heap fs) (root fs) (currentDir fs) ->
  resolvePath fs path = Some r ->
  r < length (heap fs) /\ descends (heap fs) (root fs) r.
Proof.
  intros R D Hr. apply reachable_wf in R.
  split; [eapply resolvePath_bound; eassumption|].
  destruct R as [W _ _]. unfold resolvePath in Hr.
  destruct (falsy path); [injection Hr as <-; assumption|].
  eapply walk_descends; [exact W| |exact Hr].
  destruct (startsWith_slash _); [apply descends_refl|assumption].
Qed.

Lemma resolvePath_descends_witness :
  14 < length (heap new_FileSystem) /\
  descends (heap new_FileSystem) (root new_FileSystem) 14.
Proof.
  apply (resolvePath_descends new_FileSystem
           (Some "thecmdchallenge/funcode/images") 14).
  - apply reachable_new.
  - apply descends_refl.
  - vm_compute; reflexivity.
Defined.

(** cd into a directory of the current directory and cd [..] lead back
    to the state before, both with the empty status. *)
Theorem cd_child_back fs x d :
  reachable fs ->
  plain_segment x = true ->
  Map_get (children (deref (heap fs) (currentDir fs))) x = Some d ->
  type (deref (heap fs) d) = directory ->
  cd fs (Some x) = (set_currentDir fs d, "") /\
  cd (set_currentDir fs d) (Some "..") = (fs, "").
Proof.
  intros R Hx G Hd. apply reachable_wf in R. destruct R as [W Hc Hcd].
  pose proof (plain_segment_spec x Hx) as (_ & Hs & _ & _).
  destruct (edge_child _ _ _ _ _ W G) as (_ & _ & Hp).
  split.
  - unfold cd. simpl strict_eq. rewrite (no_slash_not_slash x Hs).
    rewrite resolvePath_plain by assumption. rewrite G, Hd. reflexivity.
  - unfold cd. simpl strict_eq. cbv iota. rewrite resolvePath_dotdot.
    simpl heap. simpl currentDir. rewrite Hp, Hcd. destruct fs; reflexivity.
Qed.

Lemma cd_child_back_witness :
  cd (set_currentDir new_FileSystem 1) (Some "..") = (new_FileSystem, "").
Proof.
  apply (cd_child_back new_FileSystem "thecmdchallenge" 1).
  - apply reachable_new.
  - reflexivity.
  - vm_compute; reflexivity.
  - vm_compute; reflexivity.
Defined.

(** The shape of the heap on every state of the class, spelled out. *)
Theorem heap_shape fs :
  reachable fs ->
  root fs < length (heap fs) /\
  parent (deref (heap fs) (root fs)) = None /\
  type (deref (heap fs) (root fs)) = directory /\
  currentDir fs < length (heap fs) /\
  type (deref (heap fs) (currentDir fs)) = directory /\
  (forall i, i < length (heap fs) -> i <> root fs ->
     exists p, parent (deref (heap fs) i) = Some p /\ p < i) /\
  (forall i k c, Map_get (children (deref (heap fs) i)) k = Some c ->
     c < length (heap fs) /\ name (deref (heap fs) c) = k /\
     parent (deref (heap fs) c) = Some i).
Proof.
  intros R. apply reachable_wf in R. destruct R as [W Hc Hd].
  split; [apply (wf_root _ _ W)|]. split; [apply (wf_root_parent _ _ W)|].
  split; [apply (wf_root_dir _ _ W)|]. split; [assumption|].
  split; [assumption|]. split.
  - intros i Hi Hne. pose proof (wf_parent_some _ _ W i Hi Hne) as Hs.
    destruct (parent (deref (heap fs) i)) as [p|] eqn:P; [|congruence].
    exists p. split; [reflexivity|]. apply (wf_parent_lt _ _ W i p Hi P).
  - intros i k c G. apply (edge_child _ _ _ _ _ W G).
Qed.

Lemma heap_shape_witness :
  root (run new_FileSystem (Mkdir "x")).1
  < length (heap (run new_FileSystem (Mkdir "x")).1).
Proof.
  apply (heap_shape (run new_FileSystem (Mkdir "x")).1).
  apply reachable_run, reachable_new.
Defined.

Lemma pwd_absolute_witness :
  let fs1 := (run new_FileSystem (Cd (Some "thecmdchallenge/funcode"))).1 in
  pwd fs1 = Some (abs_path (map (fun c => name (deref (heap fs1) c)) [1; 11])).
Proof.
  intros fs1.
  assert (Er : root fs1 = 0) by (vm_compute; reflexivity).
  assert (Ec : currentDir fs1 = 11) by (vm_compute; reflexivity).
  apply (proj2 (pwd_absolute fs1 (reachable_run _ _ reachable_new)) [1; 11]).
  rewrite Er, Ec.
  apply (lineage_child (heap fs1) 0 11 1 [1]);
    [intros H; discriminate H|vm_compute; reflexivity|].
  apply (lineage_child (heap fs1) 0 1 0 []);
    [intros H; discriminate H|vm_compute; reflexivity|].
  apply lineage_root.
Defined.

Lemma files_empty_run_witness :
  files_empty (heap (run new_FileSystem (Touch "t")).1).
Proof.
  apply (files_empty_run new_FileSystem (Touch "t")).
  - apply reachable_new.
  - apply files_empty_new_FileSystem.
  - intros path H. discriminate H.
Defined.

Lemma step_dotdot_parent_witness :
  exists p, parent (deref (heap new_FileSystem) 11) = Some p /\
            step (heap new_FileSystem) 11 ".." = Some p.
Proof.
  apply (step_dotdot_parent new_FileSystem 11).
  - apply reachable_new.
  - apply Nat.ltb_lt. vm_compute; reflexivity.
  - intros H. vm_compute in H. discriminate H.
Defined.

Lemma walk_past_file_witness :
  walk (heap new_FileSystem) 2 (["."; "."] ++ "x" :: ["y"]) = None.
Proof.
  apply (walk_past_file (heap new_FileSystem) 2 ["."; "."] "x" ["y"]).
  - vm_compute; reflexivity.
  - repeat constructor.
  - intros H. discriminate H.
  - intros H. discriminate H.
Defined.

Lemma rmdir_fails_as_rm_witness :
  rmdir new_FileSystem (Some "nope") = rm new_FileSystem (Some "nope").
Proof.
  apply (rmdir_fails_as_rm new_FileSystem (Some "nope")).
  intros H. vm_compute in H. discriminate H.
Defined.

Lemma tree_total_witness :
  exists rest,
    tree new_FileSystem =
    Some ("└── " +:+ folder_icon +:+ " " +:+
          (if Nat.eqb (currentDir new_FileSystem) (root new_FileSystem) then "/"
           else name (deref (heap new_FileSystem) (currentDir new_FileSystem)))
          +:+ newline +:+ rest).
Proof. apply (tree_total new_FileSystem). apply reachable_new. Defined.

(** The shape of the heap on every state of the reduced class: the root
    is the first cell, the current directory a directory inside the
    heap, and every entry of a children map points to a later cell that
    carries the key as its name. *)
Theorem Lib_heap_shape fs :
  Lib.reachable fs ->
  Lib.root fs = 0 /\
  Lib.currentDir fs < length (Lib.heap fs) /\
  Lib.isDirectory (Lib.deref (Lib.heap fs) (Lib.currentDir fs)) = true /\
  (forall i k c,
     Map_get (Lib.children (Lib.deref (Lib.heap fs) i)) k = Some c ->
     i < c /\ c < length (Lib.heap fs) /\
     Lib.name (Lib.deref (Lib.heap fs) c) = k).
Proof.
  intros R. destruct (Lib_reachable_wf fs R) as [[F Hr Hc Hd] R0].
  split; [assumption|]. split; [assumption|]. split; [assumption|].
  intros i k c G. apply Map_get_In in G. apply (F i k c G).
Qed.

Lemma Lib_heap_shape_witness : Lib.root Lib.fs = 0.
Proof.
  apply (Lib_heap_shape Lib.fs).
  apply (Lib.reachable_seed Lib.new_FileSystem). apply Lib.reachable_new.
Defined.

End FullWitnesses.
